(** * Transaction submission pipeline of the MegaETH developer skills

    A shallow embedding of the TypeScript snippets that make up the
    submission pipeline:

    - [NonceManager.getNextNonce] / [reset]   (wallet operations, "Backend/Bot Pattern")
    - the two React-hook variants of [getNextNonce] (one [useRef] cell, and one
      [useRef] record keyed by chain id)
    - [submitWithRetry]                       (security notes, "Blockhash Expiry")
    - [parseSignature]                        (Privy integration, "Signature Parsing")
    - [useSigningWarmup] and the warmup effect of [useMegaETHTransaction].

    Conventions of the embedding.
    - A JS [number] holding a transaction count or a chain id is a [Z];
      [lastUsed + 1] is the addition of doubles, [Number.add], which is
      exact on the safe integers and rounds beyond them.
    - A thrown JS [Error] is a [JsError] carrying its [message].
    - An [await]ed remote call is a value of type [JsError + T]:
      [inl e] when the promise rejects with [e], [inr v] when it fulfils.
    - An [async] function is cut at its [await]s into synchronous segments;
      the event loop runs one segment at a time, in any order that respects
      promise settlement. *)

From Stdlib Require Import ZArith Lia List String Ascii Sorted.
From stdpp Require Import base option list gmap strings.

Import ListNotations.
Local Open Scope Z_scope.

(** ** JavaScript errors *)

Record JsError := mkError { message : string }.

#[global] Instance JsError_eq_dec : EqDecision JsError.
Proof. solve_decision. Defined.

(** ** JavaScript numbers that hold integers

    A [number] is an IEEE 754 double: 53 bits of mantissa.  The embedding
    keeps the numbers whose value is an integer, as a [Z].  Comparisons and
    [Math.max] are exact; a sum is rounded to the nearest double, the even
    mantissa winning a tie, so that [9007199254740992 + 1] is
    [9007199254740992] again.  An integer that no double holds (an odd one
    beyond 2^53, or one beyond the largest double) is never the value of a
    number; the statements that depend on the arithmetic say which range
    they cover. *)

Module Number.

(** [Number.MAX_SAFE_INTEGER], 2^53 - 1. *)
Definition MAX_SAFE_INTEGER : Z := 9007199254740991.

(** [Number.isSafeInteger(z)] *)
Definition isSafeInteger (z : Z) : Prop :=
  - MAX_SAFE_INTEGER <= z <= MAX_SAFE_INTEGER.

(** The double nearest to the integer [z].  Up to 2^53 every integer is a
    double.  Beyond, the doubles are the multiples of
    [ulp = 2^(log2 |z| - 52)]; [q] is the mantissa of the double just below
    [|z|] and [r] what is left over. *)
Definition roundToDouble (z : Z) : Z :=
  let a := Z.abs z in
  if a <=? 9007199254740992 then z
  else
    let ulp := 2 ^ (Z.log2 a - 52) in
    let q := a / ulp in
    let r := a mod ulp in
    let mantissa :=
      if 2 * r <? ulp then q
      else if ulp <? 2 * r then q + 1
      else if Z.even q then q else q + 1 in
    Z.sgn z * (mantissa * ulp).

(** [a + b] on numbers. *)
Definition add (a b : Z) : Z := roundToDouble (a + b).

End Number.

(** * Nonce management *)

Module NonceManager.

(** [private nonces: Map<string, number>] and
    [private locks: Map<string, Promise<void>>]; a promise is named by the
    order in which [new Promise] created it. *)
Record Manager := mkManager {
  nonces : gmap string Z;
  locks  : gmap string nat
}.

(** [this.nonces.get(address) ?? -1] *)
Definition lastUsed (m : gmap string Z) (address : string) : Z :=
  default (-1) (m !! address).

(** The next value the manager would hand out by itself: [lastUsed + 1]. *)
Definition localNext (m : gmap string Z) (address : string) : Z :=
  Number.add (lastUsed m address) 1.

(** The synchronous body between the [await] of the pending count and the
    [return]:
<<
      const lastUsed = this.nonces.get(address) ?? -1;
      const nonce = Math.max(networkNonce, lastUsed + 1);
      this.nonces.set(address, nonce);
      return nonce;
>> *)
Definition reserve (m : gmap string Z) (address : string) (networkNonce : Z)
  : Z * gmap string Z :=
  let nonce := Z.max networkNonce (Number.add (lastUsed m address) 1) in
  (nonce, <[address := nonce]> m).

(** [reset(address) { this.nonces.delete(address); }] *)
Definition reset (address : string) (m : Manager) : Manager :=
  {| nonces := delete address (nonces m); locks := locks m |}.

(** One invocation of [getNextNonce(client, address)], by where it is
    suspended. *)
Inductive Call :=
| AwaitLock  (address : string) (existing : nat)
    (* at [if (existing) await existing;] *)
| AwaitCount (address : string) (own : nat)
    (* at [await client.getTransactionCount(...)], holding [resolve] of [own] *)
| Returned   (address : string) (nonce : Z)
| Thrown     (address : string) (e : JsError).

(** The event loop: the manager object, the promises already resolved, the
    counter naming the next [new Promise], and every invocation made so far
    (an invocation is named by its position). *)
Record World := mkWorld {
  manager : Manager;
  settled : gset nat;
  fresh   : nat;
  calls   : list Call
}.

Definition idle (m : gmap string Z) : World :=
  {| manager := {| nonces := m; locks := ∅ |};
     settled := ∅; fresh := 0%nat; calls := [] |}.

(** A completed reservation: which invocation, for which sender, the pending
    count the network reported to it, and the value it returned. *)
Record Reservation := mkReservation {
  who      : nat;
  sender   : string;
  observed : Z;
  assigned : Z
}.

(**
<<
    let resolve: () => void;
    this.locks.set(address, new Promise(r => resolve = r));
    try { const networkNonce = await client.getTransactionCount(...)
>>
    The segment ends suspended on the network. *)
Definition acquire (address : string) (w : World) : World * Call :=
  let p := fresh w in
  ({| manager := {| nonces := nonces (manager w);
                    locks := <[address := p]> (locks (manager w)) |};
      settled := settled w; fresh := S p; calls := calls w |},
   AwaitCount address p).

(** [finally { resolve!(); this.locks.delete(address); }] *)
Definition release (address : string) (own : nat) (w : World) : World :=
  {| manager := {| nonces := nonces (manager w);
                   locks := delete address (locks (manager w)) |};
     settled := {[own]} ∪ settled w; fresh := fresh w; calls := calls w |}.

Definition set_call (i : nat) (c : Call) (w : World) : World :=
  {| manager := manager w; settled := settled w; fresh := fresh w;
     calls := <[i := c]> (calls w) |}.

Definition push_call (c : Call) (w : World) : World :=
  {| manager := manager w; settled := settled w; fresh := fresh w;
     calls := calls w ++ [c] |}.

Definition set_nonces (m : gmap string Z) (w : World) : World :=
  {| manager := {| nonces := m; locks := locks (manager w) |};
     settled := settled w; fresh := fresh w; calls := calls w |}.

(** What the event loop can do next. *)
Inductive Action :=
| Invoke (address : string)            (* a caller invokes getNextNonce *)
| Resume (i : nat)                     (* the continuation of [await existing] runs *)
| Reply  (i : nat) (r : JsError + Z)    (* getTransactionCount settles for call [i] *)
| Reset  (address : string).           (* a caller invokes reset *)

(** One synchronous segment.  [None] when the action is not enabled. *)
Definition exec (w : World) (act : Action) : option (World * list Reservation) :=
  match act with
  | Invoke address =>
      match locks (manager w) !! address with
      | Some existing => Some (push_call (AwaitLock address existing) w, [])
      | None =>
          let '(w1, c) := acquire address w in Some (push_call c w1, [])
      end
  | Resume i =>
      match calls w !! i with
      | Some (AwaitLock address existing) =>
          if decide (existing ∈ settled w) then
            let '(w1, c) := acquire address w in Some (set_call i c w1, [])
          else None
      | _ => None
      end
  | Reply i r =>
      match calls w !! i with
      | Some (AwaitCount address own) =>
          match r with
          | inr networkNonce =>
              let '(nonce, m) := reserve (nonces (manager w)) address networkNonce in
              Some (set_call i (Returned address nonce)
                      (release address own (set_nonces m w)),
                    [mkReservation i address networkNonce nonce])
          | inl e =>
              Some (set_call i (Thrown address e) (release address own w), [])
          end
      | _ => None
      end
  | Reset address =>
      Some ({| manager := reset address (manager w); settled := settled w;
               fresh := fresh w; calls := calls w |}, [])
  end.

(** A schedule: the segments run one after the other; the reservations are
    collected in completion order. *)
Fixpoint run (w : World) (acts : list Action) : option (World * list Reservation) :=
  match acts with
  | [] => Some (w, [])
  | act :: rest =>
      match exec w act with
      | Some (w1, out1) =>
          match run w1 rest with
          | Some (w2, out2) => Some (w2, out1 ++ out2)
          | None => None
          end
      | None => None
      end
  end.

(** A single uncontended call, start to finish. *)
Definition getNextNonce (w : World) (address : string) (r : JsError + Z)
  : option (World * list Reservation) :=
  run w [Invoke address; Reply (length (calls w)) r].

(** The reservations of one sender. *)
Definition for_sender (address : string) (rs : list Reservation) : list Reservation :=
  filter (fun r => sender r = address) rs.

(** Every reservation took the larger of what the network reported and the
    value following the previous one, [previous + 1] as numbers add. *)
Fixpoint chained (next : Z) (rs : list Reservation) : Prop :=
  match rs with
  | [] => True
  | r :: rest =>
      assigned r = Z.max (observed r) next
      /\ chained (Number.add (assigned r) 1) rest
  end.

(** Every value handed out is a safe integer. *)
Definition safe (rs : list Reservation) : Prop :=
  Forall (fun r => Number.isSafeInteger (assigned r)) rs.

Definition no_reset (address : string) (acts : list Action) : Prop :=
  Forall (fun act => act <> Reset address) acts.

(** The next value the manager would hand out to [address] in world [w]. *)
Definition nextOf (w : World) (address : string) : Z :=
  localNext (nonces (manager w)) address.

(** The next value after a run of reservations. *)
Fixpoint next_after (next : Z) (rs : list Reservation) : Z :=
  match rs with
  | [] => next
  | r :: rest => next_after (Number.add (assigned r) 1) rest
  end.

(** Three callers at once for a sender whose last used nonce is 5, while the
    network still reports 3 pending: the second and the third both wake when
    the first finishes, and are in flight together. *)
Definition busy : World := idle {["0xA" := 5]}.

Definition three_at_once : list Action :=
  [Invoke "0xA"; Invoke "0xA"; Invoke "0xA";
   Reply 0 (inr 3); Resume 1; Resume 2;
   Reply 2 (inr 3); Reply 1 (inr 3)].

(** A single caller suspended on the network; the sender's last used nonce
    is 4, so the next local value is 5. *)
Definition waiting : World :=
  {| manager := {| nonces := {["0xA" := 4]}; locks := {["0xA" := 0%nat]} |};
     settled := ∅; fresh := 1%nat; calls := [AwaitCount "0xA" 0] |}.

Definition timeout : JsError := mkError "The request took too long to respond.".

(** Two callers at once; the first has returned when the second wakes up. *)
Definition two_at_once (count1 count2 : Z) : list Action :=
  [Invoke "0xA"; Invoke "0xA"; Reply 0 (inr count1); Resume 1; Reply 1 (inr count2)].

(** The same two callers, with a [reset] of the sender once the first has
    returned. *)
Definition reset_in_between (count1 count2 : Z) : list Action :=
  [Invoke "0xA"; Invoke "0xA"; Reply 0 (inr count1); Reset "0xA"; Resume 1;
   Reply 1 (inr count2)].

(** The last used nonce of the sender is the largest safe integer. *)
Definition at_the_limit : World := idle {["0xA" := Number.MAX_SAFE_INTEGER]}.

(** A single caller suspended on the network, for that sender. *)
Definition waiting_at_the_limit : World :=
  {| manager := {| nonces := {["0xA" := Number.MAX_SAFE_INTEGER]};
                   locks := {["0xA" := 0%nat]} |};
     settled := ∅; fresh := 1%nat; calls := [AwaitCount "0xA" 0] |}.

End NonceManager.

(** ** The React-hook variants *)

Module Hooks.

(** Privy integration, "Nonce Management for Rapid Transactions":
<<
    const lastNonceRef = useRef<number>(-1);
    async function getNextNonce(client, address) {
      let nonce = await client.getTransactionCount({ address, blockTag: 'pending' });
      if (lastNonceRef.current >= nonce) { nonce = lastNonceRef.current + 1; }
      lastNonceRef.current = nonce;
      return nonce;
    }
>>
    The result pairs what the call settles to with the cell afterwards. *)
Definition getNextNonce (lastNonceRef : Z) (count : JsError + Z)
  : (JsError + Z) * Z :=
  match count with
  | inl e => (inl e, lastNonceRef)
  | inr n =>
      let nonce := if lastNonceRef >=? n then Number.add lastNonceRef 1 else n in
      (inr nonce, nonce)
  end.

(** Wallet operations, "Nonce Management": the cell is a record keyed by
    chain id, [lastNonceRef.current[chainId] ?? -1]. *)
Definition getNextNonceByChain (lastNonceRef : gmap Z Z) (chainId : Z)
    (count : JsError + Z) : (JsError + Z) * gmap Z Z :=
  match count with
  | inl e => (inl e, lastNonceRef)
  | inr n =>
      let lastUsed := default (-1) (lastNonceRef !! chainId) in
      let nonce := if lastUsed >=? n then Number.add lastUsed 1 else n in
      (inr nonce, <[chainId := nonce]> lastNonceRef)
  end.

End Hooks.

(** * Submission with retry *)

Module Submission.

(** [String.prototype.startsWith] and [String.prototype.includes]. *)
Fixpoint startsWith (s prefix : string) : bool :=
  match prefix, s with
  | EmptyString, _ => true
  | String a prefix', String b s' =>
      if Ascii.eqb a b then startsWith s' prefix' else false
  | String _ _, EmptyString => false
  end.

Fixpoint includes (s needle : string) : bool :=
  startsWith s needle
  || match s with
     | EmptyString => false
     | String _ s' => includes s' needle
     end.

(** [needle] occurs somewhere in [s]: what [includes] decides. *)
Definition occurs (needle s : string) : Prop :=
  exists before after, s = (before ++ needle ++ after)%string.

(** The test of the [catch] clause: [e.message.includes('blockhash')]. *)
Definition retryable (e : JsError) : bool := includes (message e) "blockhash".

(** [new Error('Transaction expired')] *)
Definition expired : JsError := mkError "Transaction expired".

Section Client.

(** The transaction object: its [blockhash] property (absent until first
    assigned) and everything else it carries. *)
Context {Body Receipt State : Type}.

Record Transaction := mkTx {
  body : Body;
  blockhash : option string
}.

(** The remote client, as a machine over its own state. *)
Variable getLatestBlockhash : State -> (JsError + string) * State.
Variable sendTransaction : Transaction -> State -> (JsError + Receipt) * State.

(** What the client was asked, in order. *)
Inductive ClientCall :=
| AskedBlockhash (r : JsError + string)
| Sent (tx : Transaction) (r : JsError + Receipt).

Record Run := mkRun {
  outcome      : JsError + Receipt;   (* [inr]: returned, [inl]: thrown *)
  transcript   : list ClientCall;
  tx_after     : Transaction;         (* the caller's object, mutated in place *)
  client_after : State
}.

Definition after (call : ClientCall) (r : Run) : Run :=
  {| outcome := outcome r; transcript := call :: transcript r;
     tx_after := tx_after r; client_after := client_after r |}.

(** [tx.blockhash = blockhash;] *)
Definition with_blockhash (h : string) (tx : Transaction) : Transaction :=
  {| body := body tx; blockhash := Some h |}.

(**
<<
  for (let i = 0; i < maxRetries; i++) {
    try {
      const blockhash = await client.getLatestBlockhash();
      tx.blockhash = blockhash;
      return await client.sendTransaction(tx);
    } catch (e) {
      if (!e.message.includes('blockhash')) throw e;
    }
  }
  throw new Error('Transaction expired');
>>
  [remaining] is the number of iterations left. *)
Fixpoint attempts (remaining : nat) (tx : Transaction) (c : State) : Run :=
  match remaining with
  | O => {| outcome := inl expired; transcript := [];
            tx_after := tx; client_after := c |}
  | S remaining' =>
      let '(rb, c1) := getLatestBlockhash c in
      match rb with
      | inl e =>
          if retryable e
          then after (AskedBlockhash rb) (attempts remaining' tx c1)
          else {| outcome := inl e; transcript := [AskedBlockhash rb];
                  tx_after := tx; client_after := c1 |}
      | inr h =>
          let tx1 := with_blockhash h tx in
          let '(rs, c2) := sendTransaction tx1 c1 in
          match rs with
          | inr receipt =>
              {| outcome := inr receipt;
                 transcript := [AskedBlockhash rb; Sent tx1 rs];
                 tx_after := tx1; client_after := c2 |}
          | inl e =>
              if retryable e
              then after (AskedBlockhash rb)
                     (after (Sent tx1 rs) (attempts remaining' tx1 c2))
              else {| outcome := inl e;
                      transcript := [AskedBlockhash rb; Sent tx1 rs];
                      tx_after := tx1; client_after := c2 |}
          end
      end
  end.

(** [async function submitWithRetry(tx: Transaction, maxRetries = 3)];
    [None] is the omitted argument. *)
Definition submitWithRetry (tx : Transaction) (maxRetries : option Z) (c : State) : Run :=
  attempts (Z.to_nat (default 3 maxRetries)) tx c.

(** The transactions handed to [client.sendTransaction], in order. *)
Fixpoint submissions (t : list ClientCall) : list Transaction :=
  match t with
  | [] => []
  | Sent tx _ :: rest => tx :: submissions rest
  | AskedBlockhash _ :: rest => submissions rest
  end.

(** The errors the client raised, in order. *)
Fixpoint failures (t : list ClientCall) : list JsError :=
  match t with
  | [] => []
  | AskedBlockhash (inl e) :: rest => e :: failures rest
  | Sent _ (inl e) :: rest => e :: failures rest
  | _ :: rest => failures rest
  end.

(** Loop iterations: each one starts by asking for the latest blockhash. *)
Fixpoint iterations (t : list ClientCall) : nat :=
  match t with
  | [] => 0%nat
  | AskedBlockhash _ :: rest => S (iterations rest)
  | Sent _ _ :: rest => iterations rest
  end.

(** Every submission is immediately preceded by a blockhash request of its
    own, and carries exactly the answer to it. *)
Fixpoint refreshed (b : Body) (t : list ClientCall) : Prop :=
  match t with
  | [] => True
  | AskedBlockhash (inl _) :: rest => refreshed b rest
  | AskedBlockhash (inr h) :: Sent tx _ :: rest =>
      tx = {| body := b; blockhash := Some h |} /\ refreshed b rest
  | _ => False
  end.

(** The error a client call ended with, if it did. *)
Definition failure_of (call : ClientCall) : option JsError :=
  match call with
  | AskedBlockhash (inl e) => Some e
  | Sent _ (inl e) => Some e
  | _ => None
  end.

(** Whenever a failed call was followed by anything, its error was a
    retryable one. *)
Definition retried_only_if_retryable (t : list ClientCall) : Prop :=
  forall before call later e,
    t = before ++ call :: later ->
    failure_of call = Some e ->
    later <> [] ->
    retryable e = true.

(** A failed call whose error is not retryable is the last thing that
    happened, and its error is what the caller gets. *)
Definition surfaced_at_once (t : list ClientCall) (final : JsError + Receipt) : Prop :=
  forall before call later e,
    t = before ++ call :: later ->
    failure_of call = Some e ->
    retryable e = false ->
    later = [] /\ final = inl e.

(** The loop ran out: [bound] iterations, each ended by a retryable error. *)
Definition gave_up (bound : nat) (r : Run) : Prop :=
  outcome r = inl expired
  /\ iterations (transcript r) = bound
  /\ length (failures (transcript r)) = bound
  /\ Forall (fun e => retryable e = true) (failures (transcript r)).

(** How a run can end: with a receipt; with an error that is not retryable,
    the last one the client raised; or by running out of iterations. *)
Definition verdict (bound : nat) (r : Run) : Prop :=
  (exists receipt tx, outcome r = inr receipt
                      /\ last (transcript r) = Some (Sent tx (inr receipt)))
  \/ (exists e, outcome r = inl e /\ retryable e = false
                /\ last (failures (transcript r)) = Some e)
  \/ gave_up bound r.

End Client.

Arguments Transaction : clear implicits.
Arguments ClientCall : clear implicits.
Arguments Run : clear implicits.

(** A client that plays back prepared answers: its state is the answers
    still to come. *)
Module Scripted.

Inductive Answer :=
| Blockhash (r : JsError + string)
| Submit (r : JsError + string).

Definition offline : JsError := mkError "fetch failed".

Definition getLatestBlockhash (script : list Answer)
  : (JsError + string) * list Answer :=
  match script with
  | Blockhash r :: rest => (r, rest)
  | _ => (inl offline, script)
  end.

Definition sendTransaction (tx : Transaction string) (script : list Answer)
  : (JsError + string) * list Answer :=
  match script with
  | Submit r :: rest => (r, rest)
  | _ => (inl offline, script)
  end.

Definition submitWithRetry :=
  Submission.submitWithRetry getLatestBlockhash sendTransaction.

(** The block reference has expired, but the client still reports the same
    latest blockhash when asked again. *)
Definition stale_blockhash : list Answer :=
  [Blockhash (inr "0xaa"); Submit (inl (mkError "blockhash expired"));
   Blockhash (inr "0xaa"); Submit (inr "receipt")].

(** One expired block reference, then a rejection for a used nonce. *)
Definition expired_then_rejected : list Answer :=
  [Blockhash (inr "0xaa"); Submit (inl (mkError "blockhash expired"));
   Blockhash (inr "0xbb"); Submit (inl (mkError "nonce too low"));
   Blockhash (inr "0xcc"); Submit (inr "receipt")].

Definition transfer : Transaction string := mkTx "transfer" None.

(** The connection drops during the first submission and is back
    afterwards. *)
Definition connection_drops : list Answer :=
  [Blockhash (inr "0xaa"); Submit (inl offline);
   Blockhash (inr "0xbb"); Submit (inr "receipt")].

(** A rejection that has nothing to do with an expired block reference,
    but whose message mentions the word. *)
Definition malformed : JsError :=
  mkError "malformed transaction: invalid blockhash field".

Definition always_malformed : list Answer :=
  [Blockhash (inr "0xaa"); Submit (inl malformed);
   Blockhash (inr "0xbb"); Submit (inl malformed);
   Blockhash (inr "0xcc"); Submit (inl malformed);
   Blockhash (inr "0xdd"); Submit (inl malformed)].

End Scripted.

End Submission.

(** * Signature parsing *)

Module Signature.

(** [String.prototype.slice(start, end)] for [0 <= start <= end]. *)
Definition slice (s : string) (start stop : nat) : string :=
  substring start (stop - start) s.

(** The value of a hexadecimal digit, either case. *)
Definition hexValue (c : ascii) : option Z :=
  let n := Z.of_nat (nat_of_ascii c) in
  if (48 <=? n) && (n <=? 57) then Some (n - 48)
  else if (97 <=? n) && (n <=? 102) then Some (n - 87)
  else if (65 <=? n) && (n <=? 70) then Some (n - 55)
  else None.

(** The longest prefix of digits, read in base 16; [acc] is [None] as long
    as no digit was seen. *)
Fixpoint readDigits (s : string) (acc : option Z) : option Z :=
  match s with
  | EmptyString => acc
  | String c rest =>
      match hexValue c with
      | Some d => readDigits rest (Some (16 * default 0 acc + d))
      | None => acc
      end
  end.

(** White space of the ASCII range: TAB, LF, VT, FF, CR, SP. *)
Definition isWhiteSpace (c : ascii) : bool :=
  let n := nat_of_ascii c in
  ((9 <=? n)%nat && (n <=? 13)%nat) || (n =? 32)%nat.

Fixpoint trimStart (s : string) : string :=
  match s with
  | String c rest => if isWhiteSpace c then trimStart rest else s
  | EmptyString => s
  end.

(** [parseInt(s, 16)]: leading white space, an optional sign, an optional
    [0x] or [0X], then the longest run of hexadecimal digits.  [None] is
    [NaN]. *)
Definition parseInt16 (s : string) : option Z :=
  let s1 := trimStart s in
  let '(sign, s2) :=
    match s1 with
    | String "-" rest => (-1, rest)
    | String "+" rest => (1, rest)
    | _ => (1, s1)
    end in
  let s3 :=
    match s2 with
    | String "0" (String "x" rest) => rest
    | String "0" (String "X" rest) => rest
    | _ => s2
    end in
  option_map (Z.mul sign) (readDigits s3 None).

Record Parsed := mkParsed {
  r : string;
  s : string;
  v : Z
}.

(** [if (recoveryBit >= 27) recoveryBit -= 27;] *)
Definition normalize (recoveryBit : Z) : Z :=
  if recoveryBit >=? 27 then recoveryBit - 27 else recoveryBit.

(**
<<
  const r = `0x${signature.slice(2, 66)}`;
  const s = `0x${signature.slice(66, 130)}`;
  let recoveryBit = parseInt(signature.slice(130, 132), 16);
  if (recoveryBit >= 27) recoveryBit -= 27;
  const v = BigInt(chainId) * 2n + 35n + BigInt(recoveryBit);
  return { r, s, v };
>>
    [None]: [BigInt(NaN)] throws a RangeError. *)
Definition parseSignature (signature : string) (chainId : Z) : option Parsed :=
  let r := ("0x" ++ slice signature 2 66)%string in
  let s := ("0x" ++ slice signature 66 130)%string in
  match parseInt16 (slice signature 130 132) with
  | None => None
  | Some recoveryBit =>
      Some {| r := r; s := s; v := chainId * 2 + 35 + normalize recoveryBit |}
  end.

(** The same steps written inline in [useMegaETHTransaction.sendTransaction],
    with [CHAIN_ID = 6343]. *)
Definition CHAIN_ID : Z := 6343.

Definition sendTransaction_parse (sig : string) : option Parsed :=
  let r := ("0x" ++ slice sig 2 66)%string in
  let s := ("0x" ++ slice sig 66 130)%string in
  match parseInt16 (slice sig 130 132) with
  | None => None
  | Some recoveryBit =>
      Some {| r := r; s := s; v := CHAIN_ID * 2 + 35 + normalize recoveryBit |}
  end.

(** *** Raw signatures

    The signer answers with the 65 bytes written as [0x] and 130 hexadecimal
    digits, two per byte, high nibble first. *)

Definition nibble (upper : bool) (n : N) : ascii :=
  ascii_of_N (if (n <? 10)%N then 48 + n
              else if upper then 55 + n else 87 + n)%N.

Definition hexOfByte (upper : bool) (b : Byte.byte) : string :=
  let n := Byte.to_N b in
  String (nibble upper (n / 16)%N) (String (nibble upper (n mod 16)%N) EmptyString).

Fixpoint hexOfBytes (upper : bool) (bs : list Byte.byte) : string :=
  match bs with
  | [] => EmptyString
  | b :: rest => (hexOfByte upper b ++ hexOfBytes upper rest)%string
  end.

Definition toHex (upper : bool) (bs : list Byte.byte) : string :=
  ("0x" ++ hexOfBytes upper bs)%string.

Definition byteValue (b : Byte.byte) : Z := Z.of_N (Byte.to_N b).

(** A raw signature: 32 bytes [0x61], 32 bytes [0x62], recovery byte 28. *)
Definition sample : list Byte.byte :=
  replicate 32 Byte.x61 ++ replicate 32 Byte.x62 ++ [Byte.x1c].

End Signature.

(** * Signing warmup *)

Module Warmup.

Definition dummyHash : string :=
  "0x0000000000000000000000000000000000000000000000000000000000000001".

(** ** [useSigningWarmup]: one run of [warmup()] *)

Section Provider.

(** The wallet and its provider, as a machine over their own state. *)
Context {State : Type}.
Variable getEthereumProvider : State -> (JsError + unit) * State.
Variable secp256k1_sign : string -> State -> (JsError + string) * State.

Inductive Step :=
| Slept  (ms : Z)                                (* [setTimeout(r, ms)] *)
| Signed (hash : string) (r : JsError + string)  (* [provider.request(...)] *)
| Logged (msg : string).                         (* [console.log(msg)] *)

Record Run := mkRun {
  outcome : JsError + unit;       (* how the promise of [warmup()] settles *)
  steps   : list Step;
  after   : State
}.

(**
<<
  async function warmup() {
    const provider = await wallet.getEthereumProvider();
    await new Promise(r => setTimeout(r, 100));
    const dummyHash = '0x00...01';
    try {
      await provider.request({ method: 'secp256k1_sign', params: [dummyHash] });
      console.log('[Privy] Signing path warmed up');
    } catch (e) {
      await new Promise(r => setTimeout(r, 500));
      await provider.request({ method: 'secp256k1_sign', params: [dummyHash] });
    }
  }
>> *)
Definition warmup (c : State) : Run :=
  let '(p, c0) := getEthereumProvider c in
  match p with
  | inl e => {| outcome := inl e; steps := []; after := c0 |}
  | inr _ =>
      let '(r1, c1) := secp256k1_sign dummyHash c0 in
      match r1 with
      | inr _ =>
          {| outcome := inr tt;
             steps := [Slept 100; Signed dummyHash r1;
                       Logged "[Privy] Signing path warmed up"];
             after := c1 |}
      | inl _ =>
          let '(r2, c2) := secp256k1_sign dummyHash c1 in
          {| outcome := match r2 with inl e => inl e | inr _ => inr tt end;
             steps := [Slept 100; Signed dummyHash r1;
                       Slept 500; Signed dummyHash r2];
             after := c2 |}
      end
  end.

Definition isSigned (st : Step) : bool :=
  match st with Signed _ _ => true | _ => false end.

Definition signedOk (st : Step) : bool :=
  match st with Signed _ (inr _) => true | _ => false end.

(** The signing requests issued during a run. *)
Definition signingCalls (r : Run) : list Step := List.filter isSigned (steps r).

(** A signing request of the run went through.  This is read off the
    steps of a run; the hook itself keeps no record of it. *)
Definition aRequestWentThrough (r : Run) : bool := existsb signedOk (steps r).

(** The hook around [warmup]:
<<
  function useSigningWarmup() {
    const { wallets } = useWallets();
    useEffect(() => {
      const wallet = wallets.find(w => w.walletClientType === 'privy');
      if (!wallet) return;
      async function warmup() { ... }
      warmup();
    }, [wallets]);
  }
>>
    The effect calls [warmup()] and lets go of the promise: nothing awaits
    it and no handler is attached to it.  The effect itself returns
    [undefined], with or without a wallet.  The hook declares no state and
    returns nothing. *)
Record EffectCall := mkEffectCall {
  returned : JsError + unit;   (* what the caller of the effect gets *)
  floating : option Run        (* the [warmup()] started, its promise unobserved *)
}.

(** [wallet] is what [wallets.find(...)] finds. *)
Definition useSigningWarmup (wallet : option State) : EffectCall :=
  match wallet with
  | None => {| returned := inr tt; floating := None |}
  | Some c => {| returned := inr tt; floating := Some (warmup c) |}
  end.

End Provider.

Arguments Step : clear implicits.
Arguments Run : clear implicits.
Arguments EffectCall : clear implicits.

(** A signer that plays back prepared answers. *)
Module Scripted.

Definition unavailable : JsError := mkError "signer unavailable".

Definition getEthereumProvider (script : list (JsError + string))
  : (JsError + unit) * list (JsError + string) := (inr tt, script).

Definition secp256k1_sign (hash : string) (script : list (JsError + string))
  : (JsError + string) * list (JsError + string) :=
  match script with
  | r :: rest => (r, rest)
  | [] => (inl unavailable, [])
  end.

Definition warmup := Warmup.warmup getEthereumProvider secp256k1_sign.

Definition useSigningWarmup :=
  Warmup.useSigningWarmup getEthereumProvider secp256k1_sign.

(** The signer fails twice in a row. *)
Definition failing_twice : list (JsError + string) :=
  [inl (mkError "signer not initialised"); inl (mkError "signer still not initialised")].

End Scripted.

(** ** [useMegaETHTransaction]: the warmup effect

<<
  const isWarmedUp = useRef(false);
  useEffect(() => {
    const wallet = wallets.find(w => w.walletClientType === 'privy');
    if (!wallet || isWarmedUp.current) return;
    wallet.getEthereumProvider().then(async (provider) => {
      await client.getBlockNumber();
      await new Promise(r => setTimeout(r, 100));
      await provider.request({ method: 'secp256k1_sign', params: [dummyHash] });
      isWarmedUp.current = true;
      console.log('[Ready] RPC + signing warmed up');
    });
  }, [wallets]);
>> *)

(** One run of the effect, by where it is suspended. *)
Inductive EffectRun :=
| Skipped                   (* the guard returned at once *)
| AwaitProvider             (* [wallet.getEthereumProvider()] pending *)
| AwaitBlockNumber          (* [client.getBlockNumber()] pending *)
| AwaitTimer                (* [setTimeout(r, 100)] pending *)
| AwaitSign                 (* [provider.request(secp256k1_sign)] pending *)
| Ready                     (* ran to its end *)
| Rejected (e : JsError).   (* one of the awaited promises rejected *)

Record Hook := mkHook {
  isWarmedUp   : bool;            (* [isWarmedUp.current] *)
  signRequests : nat;             (* [secp256k1_sign] requests issued so far *)
  runs         : list EffectRun   (* every run of the effect, by position *)
}.

Definition mounted : Hook :=
  {| isWarmedUp := false; signRequests := 0; runs := [] |}.

Inductive Action :=
| Effect (hasWallet : bool)                    (* React runs the effect *)
| ProviderSettled (i : nat) (r : JsError + unit)
| BlockNumberSettled (i : nat) (r : JsError + Z)
| TimerFired (i : nat)
| SignSettled (i : nat) (r : JsError + string).

Definition set_run (i : nat) (s : EffectRun) (h : Hook) : Hook :=
  {| isWarmedUp := isWarmedUp h; signRequests := signRequests h;
     runs := <[i := s]> (runs h) |}.

(** One synchronous segment.  [None] when the action is not enabled. *)
Definition exec (h : Hook) (act : Action) : option Hook :=
  match act with
  | Effect hasWallet =>
      let s := if negb hasWallet || isWarmedUp h then Skipped else AwaitProvider in
      Some {| isWarmedUp := isWarmedUp h; signRequests := signRequests h;
              runs := runs h ++ [s] |}
  | ProviderSettled i r =>
      match runs h !! i with
      | Some AwaitProvider =>
          Some (set_run i (match r with
                           | inr _ => AwaitBlockNumber
                           | inl e => Rejected e
                           end) h)
      | _ => None
      end
  | BlockNumberSettled i r =>
      match runs h !! i with
      | Some AwaitBlockNumber =>
          Some (set_run i (match r with
                           | inr _ => AwaitTimer
                           | inl e => Rejected e
                           end) h)
      | _ => None
      end
  | TimerFired i =>
      match runs h !! i with
      | Some AwaitTimer =>
          Some {| isWarmedUp := isWarmedUp h;
                  signRequests := S (signRequests h);
                  runs := <[i := AwaitSign]> (runs h) |}
      | _ => None
      end
  | SignSettled i r =>
      match runs h !! i with
      | Some AwaitSign =>
          match r with
          | inr _ => Some {| isWarmedUp := true;
                             signRequests := signRequests h;
                             runs := <[i := Ready]> (runs h) |}
          | inl e => Some (set_run i (Rejected e) h)
          end
      | _ => None
      end
  end.

Fixpoint run (h : Hook) (acts : list Action) : option Hook :=
  match acts with
  | [] => Some h
  | act :: rest =>
      match exec h act with
      | Some h1 => run h1 rest
      | None => None
      end
  end.

(** [n] runs of the effect in a row, then all of them taken through their
    awaits side by side: every run has its signing request in flight before
    the first one settles. *)
Definition concurrently (n : nat) : list Action :=
  replicate n (Effect true)
  ++ map (fun i => ProviderSettled i (inr tt)) (seq 0 n)
  ++ map (fun i => BlockNumberSettled i (inr 0)) (seq 0 n)
  ++ map TimerFired (seq 0 n)
  ++ map (fun i => SignSettled i (inr "0x")) (seq 0 n).

(** A run that has had its signing request issued and not seen it fail. *)
Definition hasSigned (s : EffectRun) : bool :=
  match s with AwaitSign | Ready => true | _ => false end.

(** A run that may have had its signing request issued. *)
Definition maySign (s : EffectRun) : bool :=
  match s with AwaitSign | Ready | Rejected _ => true | _ => false end.

Definition count (p : EffectRun -> bool) (l : list EffectRun) : nat :=
  length (List.filter p l).

(** The requests issued so far lie between the runs known to have signed
    and the runs that may have. *)
Definition accounted (h : Hook) : Prop :=
  (count hasSigned (runs h) <= signRequests h)%nat
  /\ (signRequests h <= count maySign (runs h))%nat.

(** What a segment does to the hook besides moving one run on. *)
Definition bump (f : bool -> bool) (g : nat -> nat) (i : nat) (s : EffectRun)
    (h : Hook) : Hook :=
  {| isWarmedUp := f (isWarmedUp h); signRequests := g (signRequests h);
     runs := <[i := s]> (runs h) |}.

End Warmup.

(** * More of the nonce manager: what the lock does and does not do *)

Module NonceLock.

Import NonceManager.

(** Some call is suspended on the network holding promise [p] for
    [address]: the one that created [p] and will resolve it. *)
Definition owned (w : World) (address : string) (p : nat) : Prop :=
  exists j, calls w !! j = Some (AwaitCount address p).

(** Every entry of [locks] was put there by a call that is still waiting
    for the network. *)
Definition locks_owned (w : World) : Prop :=
  forall address p, locks (manager w) !! address = Some p -> owned w address p.

(** Every call suspended at [await existing] waits for a promise that is
    resolved already or will be resolved by a call in flight. *)
Definition waits_justified (w : World) : Prop :=
  forall i address p,
    calls w !! i = Some (AwaitLock address p) ->
    p ∈ settled w \/ owned w address p.

Definition consistent (w : World) : Prop := locks_owned w /\ waits_justified w.

(** The call has settled: it returned or it threw. *)
Definition finished (c : Call) : bool :=
  match c with
  | Returned _ _ | Thrown _ _ => true
  | AwaitLock _ _ | AwaitCount _ _ => false
  end.

(** An action that needs nothing new from callers: a pending continuation
    runs, or the network answers with [r1] or [r2]. *)
Definition pending_only (r1 r2 : JsError + Z) (act : Action) : Prop :=
  match act with
  | Resume _ => True
  | Reply _ r => r = r1 \/ r = r2
  | Invoke _ | Reset _ => False
  end.

(** Two callers queue behind a first one, which then gets its answer. *)
Definition queued : list Action :=
  [Invoke "0xA"; Invoke "0xA"; Invoke "0xA"; Reply 0 (inr 3)].

(** The world after [queued]: the first call has returned 3 and resolved
    its promise; the other two still wait for it. *)
Definition released : World :=
  {| manager := {| nonces := {["0xA" := 3]}; locks := ∅ |};
     settled := {[0%nat]}; fresh := 1%nat;
     calls := [Returned "0xA" 3; AwaitLock "0xA" 0; AwaitLock "0xA" 0] |}.

End NonceLock.

(** * More of submission with retry *)

Module SubmissionMore.

Import Submission.

(** The requests for the latest blockhash that the client did not answer. *)
Fixpoint unanswered {Body Receipt : Type} (t : list (ClientCall Body Receipt)) : nat :=
  match t with
  | [] => 0%nat
  | AskedBlockhash (inl _) :: rest => S (unanswered rest)
  | _ :: rest => unanswered rest
  end.

(** A client whose node is unreachable for the blockhash, with an error
    text that mentions it, then recovers. *)
Definition flaky_blockhash : list Scripted.Answer :=
  [Scripted.Blockhash (inl (mkError "could not fetch latest blockhash"));
   Scripted.Blockhash (inr "0xaa"); Scripted.Submit (inr "receipt")].

End SubmissionMore.

(** * More of signature parsing *)

Module SignatureMore.

(** The result of [parseSignatureEIP1559]; [yParity] is a JS number, [None]
    when it is [NaN]. *)
Record ParsedEIP1559 := mkParsedEIP1559 {
  r : string;
  s : string;
  yParity : option Z
}.

(**
<<
  const r = `0x${signature.slice(2, 66)}`;
  const s = `0x${signature.slice(66, 130)}`;
  let yParity = parseInt(signature.slice(130, 132), 16);
  if (yParity >= 27) yParity -= 27;
  return { r, s, yParity: yParity as 0 | 1 };
>>
    [NaN >= 27] is false, so a [NaN] is returned as it is; the cast to
    [0 | 1] is erased at run time. *)
Definition parseSignatureEIP1559 (signature : string) : ParsedEIP1559 :=
  {| r := ("0x" ++ Signature.slice signature 2 66)%string;
     s := ("0x" ++ Signature.slice signature 66 130)%string;
     yParity := option_map Signature.normalize
                  (Signature.parseInt16 (Signature.slice signature 130 132)) |}.

(** A recovery value the chain formats accept. *)
Definition validParity (y : option Z) : Prop := y = Some 0 \/ y = Some 1.

(** 64 bytes of signature body. *)
Definition body64 : list Byte.byte :=
  replicate 32 Byte.x61 ++ replicate 32 Byte.x62.

End SignatureMore.

(** * More of the signing warmup *)

Module WarmupMore.

Import Warmup.

(** The step is a [console.log]. *)
Definition isLogged (st : Step) : bool :=
  match st with Logged _ => true | _ => false end.

(** The flag is set exactly when some run of the effect has gone through. *)
Definition flag_tells (h : Hook) : Prop :=
  isWarmedUp h = true <-> Ready ∈ runs h.

(** The effect runs twice; the RPC warmup of the first run fails, the
    second run goes through. *)
Definition first_fails_second_succeeds : list Action :=
  [Effect true; Effect true;
   ProviderSettled 0 (inr tt); BlockNumberSettled 0 (inl (mkError "HTTP request failed"));
   ProviderSettled 1 (inr tt); BlockNumberSettled 1 (inr 0); TimerFired 1;
   SignSettled 1 (inr "0x")].

(** One run of the effect, in which the signer fails. *)
Definition signer_fails : list Action :=
  [Effect true; ProviderSettled 0 (inr tt); BlockNumberSettled 0 (inr 0);
   TimerFired 0; SignSettled 0 (inl (mkError "signer not initialised"))].

(** The signer fails once, then signs. *)
Definition failing_once : list (JsError + string) :=
  [inl (mkError "signer not initialised"); inr "0xsignature"].

End WarmupMore.

(** * [useMegaETHTransaction]: sending *)

Module SendTransaction.

(** The transaction built by [sendTransaction]. *)
Record UnsignedTx := mkUnsignedTx {
  to : string;
  value : Z;
  gas : Z;
  gasPrice : Z;
  nonce : Z;
  chainId : Z
}.

(** The body of the JSON-RPC reply, [{ result, error }]; either may be
    missing. *)
Record RpcReply := mkRpcReply {
  result : option string;
  error : option JsError
}.

(** What the things one call waits for settle to: whether
    [wallets.find(...)] finds a Privy wallet, [wallet.getEthereumProvider()],
    [client.getTransactionCount(...)], the [secp256k1_sign] request, and
    [fetch(...)] followed by [response.json()]. *)
Record Answers := mkAnswers {
  hasWallet : bool;
  provider : JsError + unit;
  count : JsError + Z;
  signature : JsError + string;
  reply : JsError + RpcReply
}.

(** What one call did: how its promise settles, [lastNonceRef.current]
    afterwards, the transaction it built, the hash it asked the signer to
    sign and the raw transaction it posted, if it got that far. *)
Record Sent := mkSent {
  outcome : JsError + option string;
  lastNonce : Z;
  built : option UnsignedTx;
  signedHash : option string;
  posted : option string
}.

(** [new Error('No Privy wallet')] *)
Definition noWallet : JsError := mkError "No Privy wallet".

(** The RangeError of [BigInt(NaN)]. *)
Definition notAnInteger : JsError :=
  mkError "The number NaN cannot be converted to a BigInt because it is not an integer".

(** [parseGwei('0.001')]: 0.001 gwei is 10^6 wei. *)
Definition gwei_0_001 : Z := 1000000.

Section Viem.

(** viem's [serializeTransaction] (with and without a signature) and
    [keccak256].  Both check what they are given and throw when it is not
    well formed ([serializeTransaction] an [InvalidAddressError] for a
    recipient that is no address, say). *)
Variable serializeTransaction :
  UnsignedTx -> option Signature.Parsed -> JsError + string.
Variable keccak256 : string -> JsError + string.

(**
<<
  const sendTransaction = useCallback(async (to, value) => {
    const wallet = wallets.find(w => w.walletClientType === 'privy');
    if (!wallet) throw new Error('No Privy wallet');
    const provider = await wallet.getEthereumProvider();
    const address = wallet.address;
    let nonce = await client.getTransactionCount({ address, blockTag: 'pending' });
    if (lastNonceRef.current >= nonce) nonce = lastNonceRef.current + 1;
    lastNonceRef.current = nonce;
    const unsignedTx = { to, value, gas: 100000n, gasPrice: parseGwei('0.001'),
                         nonce, chainId: CHAIN_ID };
    const serialized = serializeTransaction(unsignedTx);
    const hash = keccak256(serialized);
    const sig = await provider.request({ method: 'secp256k1_sign', params: [hash] });
    const r = ...; const s = ...; let recoveryBit = ...; const v = ...;
    const signedTx = serializeTransaction(unsignedTx, { r, s, v });
    const response = await fetch(MEGAETH_RPC, { ... params: [signedTx] ... });
    const { result, error } = await response.json();
    if (error) throw new Error(error.message);
    return result;
  }, [wallets]);
>> *)
Definition sendTransaction (to : string) (value : Z) (lastNonceRef : Z)
    (a : Answers) : Sent :=
  let stop e cell tx h raw :=
    {| outcome := inl e; lastNonce := cell; built := tx;
       signedHash := h; posted := raw |} in
  if negb (hasWallet a) then stop noWallet lastNonceRef None None None else
  match provider a with
  | inl e => stop e lastNonceRef None None None
  | inr _ =>
      match Hooks.getNextNonce lastNonceRef (count a) with
      | (inl e, cell) => stop e cell None None None
      | (inr nonce, cell) =>
          let unsignedTx :=
            {| to := to; value := value; gas := 100000; gasPrice := gwei_0_001;
               nonce := nonce; chainId := Signature.CHAIN_ID |} in
          match serializeTransaction unsignedTx None with
          | inl e => stop e cell (Some unsignedTx) None None
          | inr serialized =>
          match keccak256 serialized with
          | inl e => stop e cell (Some unsignedTx) None None
          | inr hash =>
          match signature a with
          | inl e => stop e cell (Some unsignedTx) (Some hash) None
          | inr sig =>
          match Signature.sendTransaction_parse sig with
          | None => stop notAnInteger cell (Some unsignedTx) (Some hash) None
          | Some rsv =>
          match serializeTransaction unsignedTx (Some rsv) with
          | inl e => stop e cell (Some unsignedTx) (Some hash) None
          | inr signedTx =>
          match reply a with
          | inl e => stop e cell (Some unsignedTx) (Some hash) (Some signedTx)
          | inr body =>
              match error body with
              | Some e =>
                  stop (mkError (message e)) cell
                    (Some unsignedTx) (Some hash) (Some signedTx)
              | None =>
                  {| outcome := inr (result body); lastNonce := cell;
                     built := Some unsignedTx; signedHash := Some hash;
                     posted := Some signedTx |}
              end
          end end end end end end
      end
  end.

End Viem.

(** Stand-ins for the two library functions, enough to run the hook on
    an example.  The serialization refuses a recipient that is not [0x]
    followed by forty hexadecimal digits, as viem does; otherwise it names
    the recipient and, when signed, the [r] of the signature.  The hash
    wraps its argument. *)
Definition isAddress (s : string) : bool :=
  Submission.startsWith s "0x"
  && (String.length s =? 42)%nat
  && forallb (fun c => match Signature.hexValue c with
                        | Some _ => true
                        | None => false
                        end)
       (list_ascii_of_string (Signature.slice s 2 42)).

Definition invalidAddress (s : string) : JsError :=
  mkError ("Address " ++ s ++ " is invalid.").

Definition serialize (tx : UnsignedTx) (sig : option Signature.Parsed)
  : JsError + string :=
  if isAddress (to tx) then
    match sig with
    | None => inr ("unsigned:" ++ to tx)%string
    | Some rsv => inr ("signed:" ++ to tx ++ ":" ++ Signature.r rsv)%string
    end
  else inl (invalidAddress (to tx)).

Definition mark (s : string) : JsError + string :=
  inr ("keccak(" ++ s ++ ")")%string.

(** The WETH contract, an address; and a recipient that is none. *)
Definition weth : string := "0x4200000000000000000000000000000000000006".
Definition noAddress : string := "0xB".

(** The wallet is there, the network reports 7 pending, the signer is
    down. *)
Definition signer_down : Answers :=
  {| hasWallet := true; provider := inr tt; count := inr 7;
     signature := inl (mkError "signer unavailable");
     reply := inl (mkError "unreachable") |}.

(** All goes well; the node still reports 7 pending. *)
Definition all_well : Answers :=
  {| hasWallet := true; provider := inr tt; count := inr 7;
     signature := inr (Signature.toHex false Signature.sample);
     reply := inr {| result := Some "receipt"; error := None |} |}.

(** No Privy wallet among the wallets. *)
Definition no_wallet : Answers :=
  {| hasWallet := false; provider := inr tt; count := inr 7;
     signature := inr (Signature.toHex false Signature.sample);
     reply := inr {| result := Some "receipt"; error := None |} |}.

End SendTransaction.

(** * Storage slot reuse: the circular buffer

<<
    uint256[100] public buffer;
    uint256 public head;
    function process(uint256 value) {
        buffer[head] = value; // Reuses existing slot
        head = (head + 1) % 100;
    }
>> *)

Module CircularBuffer.

Record Storage := mkStorage {
  buffer : list Z;   (* [uint256[100]] *)
  head : Z           (* [uint256] *)
}.

(** The contract as deployed: all storage is zero. *)
Definition deployed : Storage := {| buffer := replicate 100 0; head := 0 |}.

(** [None] when the call reverts: an index outside the array panics. *)
Definition process (value : Z) (st : Storage) : option Storage :=
  if (0 <=? head st) && (head st <? 100) then
    Some {| buffer := <[Z.to_nat (head st) := value]> (buffer st);
            head := (head st + 1) mod 100 |}
  else None.

(** One call after the other. *)
Fixpoint processAll (values : list Z) (st : Storage) : option Storage :=
  match values with
  | [] => Some st
  | value :: rest =>
      match process value st with
      | Some st1 => processAll rest st1
      | None => None
      end
  end.

End CircularBuffer.

(** * SSTORE2 deployment helpers *)

Module Sstore2.

(**
<<
const MEGAETH_GAS = {
  INTRINSIC_COMPUTE: 21_000n,
  INTRINSIC_STORAGE: 39_000n,
  CONTRACT_CREATION_COMPUTE: 32_000n,
  CODE_DEPOSIT_PER_BYTE: 10_000n,
  CALLDATA_NONZERO_PER_BYTE: 160n,
};
>> *)
Definition INTRINSIC_COMPUTE : Z := 21000.
Definition INTRINSIC_STORAGE : Z := 39000.
Definition CONTRACT_CREATION_COMPUTE : Z := 32000.
Definition CODE_DEPOSIT_PER_BYTE : Z := 10000.
Definition CALLDATA_NONZERO_PER_BYTE : Z := 160.

(**
<<
function estimateDeployGas(dataSizeBytes) {
  const dataSize = BigInt(dataSizeBytes);
  const computeGas = MEGAETH_GAS.INTRINSIC_COMPUTE
    + MEGAETH_GAS.CONTRACT_CREATION_COMPUTE;
  const storageGas = MEGAETH_GAS.INTRINSIC_STORAGE
    + (dataSize * MEGAETH_GAS.CODE_DEPOSIT_PER_BYTE)
    + (dataSize * MEGAETH_GAS.CALLDATA_NONZERO_PER_BYTE);
  return (computeGas + storageGas) * 150n / 100n; // 50% buffer
}
>>
    BigInt division truncates towards zero: [Z.quot]. *)
Definition estimateDeployGas (dataSizeBytes : Z) : Z :=
  let dataSize := dataSizeBytes in
  let computeGas := INTRINSIC_COMPUTE + CONTRACT_CREATION_COMPUTE in
  let storageGas := INTRINSIC_STORAGE
                    + dataSize * CODE_DEPOSIT_PER_BYTE
                    + dataSize * CALLDATA_NONZERO_PER_BYTE in
  Z.quot ((computeGas + storageGas) * 150) 100.

(** [const CHUNK_SIZE = 15000;] *)
Definition CHUNK_SIZE : nat := Z.to_nat 15000.

Section Chunks.

Context {A : Type}.

(**
<<
  const chunks = [];
  for (let i = 0; i < data.length; i += CHUNK_SIZE) {
    chunks.push(data.slice(i, i + CHUNK_SIZE));
  }
  return chunks;
>>
    with [size] for the chunk size and [fuel] bounding the iterations. *)
Fixpoint chunkLoop (size fuel i : nat) (data : list A) : list (list A) :=
  match fuel with
  | O => []
  | S fuel' =>
      if (i <? length data)%nat
      then take size (drop i data) :: chunkLoop size fuel' (i + size) data
      else []
  end.

(** [chunkData(data)]: the index grows by [CHUNK_SIZE] each time round, so
    [data.length] iterations are enough. *)
Definition chunkData (data : list A) : list (list A) :=
  chunkLoop CHUNK_SIZE (length data) 0 data.

End Chunks.

End Sstore2.

(** * Error messages for the user *)

Module TxErrors.

(**
<<
const TX_ERRORS = {
  'nonce too low': 'Transaction already executed',
  'already known': 'Transaction pending',
  'intrinsic gas too low': 'Increase gas limit',
  'insufficient funds': 'Not enough ETH for gas'
};
>>
    in the order [Object.entries] lists them. *)
Definition TX_ERRORS : list (string * string) :=
  [("nonce too low", "Transaction already executed");
   ("already known", "Transaction pending");
   ("intrinsic gas too low", "Increase gas limit");
   ("insufficient funds", "Not enough ETH for gas")].

(**
<<
function handleTxError(error: Error) {
  for (const [pattern, message] of Object.entries(TX_ERRORS)) {
    if (error.message.includes(pattern)) {
      return message;
    }
  }
  return 'Transaction failed';
}
>> *)
Fixpoint firstMatch (table : list (string * string)) (text : string) : option string :=
  match table with
  | [] => None
  | (pattern, shown) :: rest =>
      if Submission.includes text pattern then Some shown
      else firstMatch rest text
  end.

Definition handleTxError (error : JsError) : string :=
  default "Transaction failed" (firstMatch TX_ERRORS (message error)).

(** [pattern] occurs somewhere in [text]. *)
Abbreviation occurs := Submission.occurs.

End TxErrors.

(** * The mini-block stream: subscribers

<<
  private subscribers = new Set<(data: any) => void>();
  ...
    this.ws.on('message', (data) => {
      const parsed = JSON.parse(data.toString());
      if (parsed.method === 'eth_subscription') {
        this.subscribers.forEach(fn => fn(parsed.params.result));
      }
    });
  ...
  subscribe(callback: (data: any) => void) {
    this.subscribers.add(callback);
    return () => this.subscribers.delete(callback);
  }
>>
    A callback is named by a number; the [Set] is the list of its members
    in insertion order. *)

Module Stream.

(** [Set.prototype.add] *)
Definition add (callback : nat) (subscribers : list nat) : list nat :=
  if decide (callback ∈ subscribers) then subscribers
  else subscribers ++ [callback].

(** [Set.prototype.delete] *)
Definition delete (callback : nat) (subscribers : list nat) : list nat :=
  filter (fun c => c <> callback) subscribers.

(** [subscribe(callback)]: the set afterwards; the function it returns is
    [unsubscribe callback]. *)
Definition subscribe (callback : nat) (subscribers : list nat) : list nat :=
  add callback subscribers.

Definition unsubscribe (callback : nat) (subscribers : list nat) : list nat :=
  delete callback subscribers.

(** A parsed message: its [method] and its [params.result]. *)
Record Message := mkMessage {
  method : string;
  result : string
}.

(** The calls the ['message'] handler makes: which callback, with what. *)
Definition onMessage (subscribers : list nat) (parsed : Message) : list (nat * string) :=
  if String.eqb (method parsed) "eth_subscription"
  then map (fun fn => (fn, result parsed)) subscribers
  else [].

End Stream.

(** * Properties of nonce management *)

Section NonceFacts.

Import NonceManager.

(** Adding one is exact from -2^53 - 1 up to the largest safe integer. *)
Lemma add_one_exact (z : Z) :
  -9007199254740993 <= z <= 9007199254740991 -> Number.add z 1 = z + 1.
Proof.
  intros Hz. unfold Number.add, Number.roundToDouble.
  destruct (Z.leb_spec (Z.abs (z + 1)) 9007199254740992); [reflexivity | lia].
Qed.

(** Beyond, the sum is rounded: to the even mantissa on a tie, and back to
    the number itself once the doubles are four or more apart. *)
Example add_one_rounds :
  Number.add 9007199254740992 1 = 9007199254740992
  /\ Number.add 9007199254740994 1 = 9007199254740996
  /\ Number.add 18014398509481984 1 = 18014398509481984
  /\ Number.add (-9007199254740994) 1 = -9007199254740992.
Proof. vm_compute. split_and!; reflexivity. Qed.

Lemma add_one_safe (z : Z) : Number.isSafeInteger z -> Number.add z 1 = z + 1.
Proof.
  unfold Number.isSafeInteger, Number.MAX_SAFE_INTEGER. intros Hz.
  apply add_one_exact. lia.
Qed.

Lemma localNext_insert_eq (m : gmap string Z) a x :
  localNext (<[a := x]> m) a = Number.add x 1.
Proof. unfold localNext, lastUsed. by rewrite lookup_insert_eq. Qed.

Lemma localNext_insert_ne (m : gmap string Z) a b x :
  b <> a -> localNext (<[b := x]> m) a = localNext m a.
Proof. intros Hne. unfold localNext, lastUsed. by rewrite lookup_insert_ne. Qed.

Lemma localNext_delete_ne (m : gmap string Z) a b :
  b <> a -> localNext (delete b m) a = localNext m a.
Proof. intros Hne. unfold localNext, lastUsed. by rewrite lookup_delete_ne. Qed.

Lemma reserve_max (m : gmap string Z) a n :
  reserve m a n = (Z.max n (localNext m a), <[a := Z.max n (localNext m a)]> m).
Proof. reflexivity. Qed.

Lemma chained_app next l1 l2 :
  chained next (l1 ++ l2) <-> chained next l1 /\ chained (next_after next l1) l2.
Proof.
  revert next. induction l1 as [|r l1 IH]; intros next; simpl.
  - tauto.
  - rewrite IH. tauto.
Qed.

Lemma next_after_app next l1 l2 :
  next_after next (l1 ++ l2) = next_after (next_after next l1) l2.
Proof. revert next. induction l1 as [|r l1 IH]; intros next; simpl; auto. Qed.

(** A single segment keeps the chain of one sender going, as long as it is
    not a [reset] of that sender. *)
Lemma exec_chained w act w1 out a :
  exec w act = Some (w1, out) ->
  act <> Reset a ->
  chained (nextOf w a) (for_sender a out)
  /\ nextOf w1 a = next_after (nextOf w a) (for_sender a out).
Proof.
  unfold nextOf. intros Hexec Hact. destruct act as [b | i | i r | b]; simpl in Hexec.
  - destruct (locks (manager w) !! b); inversion Hexec; subst; simpl; auto.
  - destruct (calls w !! i) as [[b p | | | ]|]; try discriminate.
    destruct (decide (p ∈ settled w)); inversion Hexec; subst; simpl; auto.
  - destruct (calls w !! i) as [[ | b own | | ]|]; try discriminate.
    destruct r as [e | n]; inversion Hexec; subst; clear Hexec; simpl; auto.
    unfold for_sender. destruct (decide (b = a)) as [-> | Hne].
    + rewrite filter_cons_True by done. rewrite filter_nil. simpl.
      rewrite localNext_insert_eq. auto.
    + rewrite filter_cons_False by done. rewrite filter_nil. simpl.
      rewrite localNext_insert_ne by done. auto.
  - inversion Hexec; subst; simpl. split; [done|].
    apply localNext_delete_ne. congruence.
Qed.

Lemma run_chained acts : forall w w' out a,
  run w acts = Some (w', out) ->
  no_reset a acts ->
  chained (nextOf w a) (for_sender a out)
  /\ nextOf w' a = next_after (nextOf w a) (for_sender a out).
Proof.
  induction acts as [|act rest IH]; intros w w' out a Hrun Hnr; simpl in Hrun.
  - inversion Hrun; subst. simpl. auto.
  - destruct (exec w act) as [[w1 out1]|] eqn:Hexec; [|discriminate].
    destruct (run w1 rest) as [[w2 out2]|] eqn:Hrest; [|discriminate].
    inversion Hrun; subst; clear Hrun.
    apply Forall_cons in Hnr as [Hact Hnr].
    destruct (exec_chained _ _ _ _ a Hexec Hact) as [Hc1 Hn1].
    destruct (IH _ _ _ a Hrest Hnr) as [Hc2 Hn2].
    unfold for_sender in *. rewrite filter_app.
    rewrite chained_app, next_after_app, <- Hn1. auto.
Qed.

(** A chain of safe integers only hands out values from [next] upwards, in
    strictly ascending order. *)
Lemma chained_lower_bound next rs :
  chained next rs -> safe rs -> Forall (fun x => next <= x) (map assigned rs).
Proof.
  unfold safe. revert next. induction rs as [|r rs IH]; intros next; simpl.
  - constructor.
  - intros [Hr Hrest] Hsafe. apply Forall_cons in Hsafe as [Hsafe1 Hsafe].
    rewrite add_one_safe in Hrest by exact Hsafe1.
    constructor; [lia|].
    eapply Forall_impl; [apply (IH _ Hrest Hsafe)|]. simpl. intros x ?. lia.
Qed.

Lemma chained_sorted next rs :
  chained next rs -> safe rs -> StronglySorted Z.lt (map assigned rs).
Proof.
  unfold safe. revert next. induction rs as [|r rs IH]; intros next; simpl.
  - constructor.
  - intros [Hr Hrest] Hsafe. apply Forall_cons in Hsafe as [Hsafe1 Hsafe].
    constructor; [eauto|].
    rewrite add_one_safe in Hrest by exact Hsafe1.
    eapply Forall_impl; [apply (chained_lower_bound _ _ Hrest Hsafe)|].
    simpl. intros x ?. lia.
Qed.

Lemma sorted_NoDup (l : list Z) : StronglySorted Z.lt l -> NoDup l.
Proof.
  induction 1 as [|x l Hs IH Hall]; constructor; auto.
  intros Hin. rewrite Forall_forall in Hall.
  specialize (Hall _ Hin). lia.
Qed.

(** When the network never reports more than the chain has reached, the
    chain is the run [next, next+1, ...] without a gap. *)
Lemma chained_contiguous rs : forall next,
  chained next rs ->
  safe rs ->
  Forall (fun r => observed r <= next) rs ->
  map assigned rs = seqZ next (Z.of_nat (length rs)).
Proof.
  unfold safe. induction rs as [|r rs IH]; intros next Hc Hsafe Hobs.
  - reflexivity.
  - simpl in Hc. destruct Hc as [Hr Hrest].
    apply Forall_cons in Hsafe as [Hsafe1 Hsafe].
    rewrite add_one_safe in Hrest by exact Hsafe1.
    apply Forall_cons in Hobs as [Hobs1 Hobs].
    assert (Hnext : assigned r = next) by lia.
    rewrite length_cons, Nat2Z.inj_succ. rewrite seqZ_cons by lia.
    simpl. rewrite Hnext. f_equal.
    replace (Z.pred (Z.succ (Z.of_nat (length rs)))) with (Z.of_nat (length rs)) by lia.
    rewrite <- Hnext. apply IH; [done | done |].
    eapply Forall_impl; [apply Hobs|]. simpl. intros x ?. lia.
Qed.


(** On the safe integers the hooks' test computes the same maximum as
    [Math.max]. *)
Lemma bump_max (lastUsed n : Z) :
  Number.isSafeInteger lastUsed ->
  (if lastUsed >=? n then Number.add lastUsed 1 else n) = Z.max n (lastUsed + 1).
Proof.
  intros Hsafe. rewrite add_one_safe by exact Hsafe.
  destruct (Z.geb_spec lastUsed n); lia.
Qed.

(** An uncontended call runs straight through: it takes the larger of the
    reported count and the local next value, and leaves the lock free. *)
Lemma getNextNonce_uncontended (w : World) a n :
  locks (manager w) !! a = None ->
  exists w1,
    getNextNonce w a (inr n)
    = Some (w1, [mkReservation (length (calls w)) a n (Z.max n (nextOf w a))])
    /\ nextOf w1 a = Number.add (Z.max n (nextOf w a)) 1
    /\ locks (manager w1) !! a = None.
Proof.
  intros Hfree. unfold getNextNonce. cbn [run exec]. rewrite Hfree.
  cbn [acquire push_call calls].
  rewrite list_lookup_middle by reflexivity.
  cbn [manager nonces set_nonces]. rewrite reserve_max.
  eexists. split; [reflexivity|].
  unfold nextOf. cbn [set_call release set_nonces manager nonces locks].
  split; [apply localNext_insert_eq | apply lookup_delete_eq].
Qed.

End NonceFacts.

Section NonceClaims.

Import NonceManager.

(** C1, as the code has it.  Whatever the interleaving of any number of
    [getNextNonce] calls (and of resets of other senders), as long as the
    sender itself is not reset meanwhile, the values handed out for it, in
    completion order, each equal the larger of the reported pending count
    and the number after the previous one.  While these values are safe
    integers they are strictly ascending and pairwise distinct, and they
    form the gap-free run [next, next+1, ...] whenever the network does not
    itself report a value beyond the local one. *)
Theorem concurrent_reservations_distinct_and_contiguous :
  forall (w w' : World) (acts : list Action) (out : list Reservation) (a : string),
    run w acts = Some (w', out) ->
    no_reset a acts ->
    safe (for_sender a out) ->
    let mine := for_sender a out in
    chained (nextOf w a) mine
    /\ StronglySorted Z.lt (map assigned mine)
    /\ NoDup (map assigned mine)
    /\ (Forall (fun r => observed r <= nextOf w a) mine ->
        map assigned mine = seqZ (nextOf w a) (Z.of_nat (length mine))).
Proof.
  intros w w' acts out a Hrun Hnr Hsafe mine.
  destruct (run_chained _ _ _ _ a Hrun Hnr) as [Hc _]. fold mine in Hc, Hsafe.
  split; [exact Hc|].
  split; [exact (chained_sorted _ _ Hc Hsafe)|].
  split; [exact (sorted_NoDup _ (chained_sorted _ _ Hc Hsafe))|].
  intros Hobs. exact (chained_contiguous _ _ Hc Hsafe Hobs).
Qed.

(** Three callers at once: the first returns 6; the other two wake together,
    both query the network, and return 7 and 8 in the order their answers
    arrive.  The three values are distinct and without a gap. *)
Lemma three_at_once_distinct :
  exists w' out,
    run busy three_at_once = Some (w', out)
    /\ no_reset "0xA" three_at_once
    /\ safe (for_sender "0xA" out)
    /\ calls w' = [Returned "0xA" 6; Returned "0xA" 8; Returned "0xA" 7]
    /\ map assigned (for_sender "0xA" out) = [6; 7; 8]
    /\ NoDup (map assigned (for_sender "0xA" out)).
Proof.
  assert (Hrun :
    run busy three_at_once
    = Some ({| manager := {| nonces := {["0xA" := 8]}; locks := ∅ |};
               settled := {[0%nat; 1%nat; 2%nat]}; fresh := 3%nat;
               calls := [Returned "0xA" 6; Returned "0xA" 8; Returned "0xA" 7] |},
            [mkReservation 0 "0xA" 3 6; mkReservation 2 "0xA" 3 7;
             mkReservation 1 "0xA" 3 8])) by (vm_compute; reflexivity).
  assert (Hnr : no_reset "0xA" three_at_once)
    by (unfold no_reset, three_at_once; repeat constructor; discriminate).
  assert (Hsafe : safe (for_sender "0xA"
                          [mkReservation 0 "0xA" 3 6; mkReservation 2 "0xA" 3 7;
                           mkReservation 1 "0xA" 3 8])).
  { unfold safe, Number.isSafeInteger, Number.MAX_SAFE_INTEGER.
    repeat constructor; cbn; lia. }
  pose proof (concurrent_reservations_distinct_and_contiguous
                _ _ _ _ "0xA" Hrun Hnr Hsafe) as H.
  cbv zeta in H. destruct H as (_ & _ & Hnd & Hgapless).
  eexists _, _. split; [exact Hrun|]. split; [exact Hnr|]. split; [exact Hsafe|].
  split; [reflexivity|]. split; [|exact Hnd].
  rewrite Hgapless; [reflexivity|].
  vm_compute. repeat constructor; discriminate.
Defined.

(** C1, as the specification words it, fails.  Two callers at once for a
    sender whose last used nonce is 6, the network reporting 7 pending: the
    first returns 7, the sender is reset, and the second, woken up
    afterwards, returns 7 as well.  And without any reset: when the last
    used nonce is the largest safe integer, [lastUsed + 1] is 2^53 for the
    first caller and 2^53 again for the second. *)
Lemma concurrent_reservations_can_collide :
  (exists w',
      run (idle {["0xA" := 6]}) (reset_in_between 7 7)
      = Some (w', [mkReservation 0 "0xA" 7 7; mkReservation 1 "0xA" 7 7])
      /\ calls w' = [Returned "0xA" 7; Returned "0xA" 7])
  /\ (exists w',
        run at_the_limit (two_at_once 0 0)
        = Some (w', [mkReservation 0 "0xA" 0 9007199254740992;
                     mkReservation 1 "0xA" 0 9007199254740992])
        /\ no_reset "0xA" (two_at_once 0 0)
        /\ calls w' = [Returned "0xA" 9007199254740992;
                       Returned "0xA" 9007199254740992])
  /\ ~ NoDup [7; 7]
  /\ ~ NoDup [9007199254740992; 9007199254740992].
Proof.
  split; [|split; [|split]].
  - eexists. split; [vm_compute; reflexivity | reflexivity].
  - eexists. split; [vm_compute; reflexivity|].
    split; [|reflexivity].
    unfold no_reset, two_at_once. repeat constructor; discriminate.
  - intros [Hnotin _]%NoDup_cons. apply Hnotin. by left.
  - intros [Hnotin _]%NoDup_cons. apply Hnotin. by left.
Qed.

(** C4, as the code has it.  When the pending count arrives, the call
    returns the larger of that count and the locally tracked next value; a
    count below the local next value therefore loses to it.  While the
    returned value is a safe integer, the local next value becomes the
    returned value plus one.  On the safe integers the single-cell hook
    computes the same maximum. *)
Theorem reservation_assigns_maximum :
  forall (w : World) (i : nat) (a : string) (own : nat) (net : Z),
    calls w !! i = Some (AwaitCount a own) ->
    Number.isSafeInteger (Z.max net (nextOf w a)) ->
    exists w',
      exec w (Reply i (inr net))
      = Some (w', [mkReservation i a net (Z.max net (nextOf w a))])
      /\ calls w' !! i = Some (Returned a (Z.max net (nextOf w a)))
      /\ nextOf w' a = Z.max net (nextOf w a) + 1
      /\ (net < nextOf w a -> Z.max net (nextOf w a) = nextOf w a)
      /\ (Number.isSafeInteger (lastUsed (nonces (manager w)) a) ->
          nextOf w a = lastUsed (nonces (manager w)) a + 1)
      /\ (forall lastNonceRef : Z,
            Number.isSafeInteger lastNonceRef ->
            Hooks.getNextNonce lastNonceRef (inr net)
            = (inr (Z.max net (lastNonceRef + 1)), Z.max net (lastNonceRef + 1))).
Proof.
  intros w i a own net Hcall Hsafe. cbn [exec]. rewrite Hcall, reserve_max.
  eexists. split; [reflexivity|].
  split.
  { cbn [set_call calls release set_nonces].
    apply list_lookup_insert_eq. by eapply lookup_lt_Some. }
  split.
  { unfold nextOf at 1. cbn [set_call release set_nonces manager nonces].
    rewrite localNext_insert_eq. apply add_one_safe. exact Hsafe. }
  split; [lia|].
  split; [intros Hlast; apply add_one_safe; exact Hlast|].
  intros lastNonceRef Hlast. unfold Hooks.getNextNonce.
  by rewrite bump_max.
Qed.

(** The scenario of the specification: local next is 5, the network reports
    5; the call returns 5 and the local next value becomes 6. *)
Lemma reservation_five_five :
  nextOf waiting "0xA" = 5
  /\ Number.isSafeInteger (Z.max 5 (nextOf waiting "0xA"))
  /\ exists w',
      exec waiting (Reply 0 (inr 5)) = Some (w', [mkReservation 0 "0xA" 5 5])
      /\ calls w' !! 0%nat = Some (Returned "0xA" 5)
      /\ nextOf w' "0xA" = 6.
Proof.
  assert (Hsafe : Number.isSafeInteger (Z.max 5 (nextOf waiting "0xA")))
    by (vm_compute; split; discriminate).
  split; [reflexivity|]. split; [exact Hsafe|].
  destruct (reservation_assigns_maximum waiting 0 "0xA" 0 5 eq_refl Hsafe)
    as (w' & Hexec & Hcall & Hnext & _).
  exists w'. split; [exact Hexec|]. split; [exact Hcall | exact Hnext].
Defined.

(** C4, as the specification words it, fails: the last used nonce is the
    largest safe integer, 2^53 - 1, and the network lags behind.  The call
    returns 2^53, and the local next value is then 2^53 as well, not that
    value plus one. *)
Lemma local_next_stalls_at_two_to_the_53 :
  exists w',
    exec waiting_at_the_limit (Reply 0 (inr 0))
    = Some (w', [mkReservation 0 "0xA" 0 9007199254740992])
    /\ calls w' !! 0%nat = Some (Returned "0xA" 9007199254740992)
    /\ nextOf w' "0xA" = 9007199254740992
    /\ nextOf w' "0xA" <> 9007199254740992 + 1.
Proof.
  eexists. split; [vm_compute; reflexivity|].
  split; [reflexivity|]. split; [reflexivity | discriminate].
Qed.




(** C2, as the code has it.  When the pending-count query rejects, the call
    rejects with the same error: no value is handed out, and the stored
    nonce of the sender is what it was. *)
Theorem query_failure_fails_the_reservation :
  forall (w : World) (i : nat) (a : string) (own : nat) (e : JsError),
    calls w !! i = Some (AwaitCount a own) ->
    exists w',
      exec w (Reply i (inl e)) = Some (w', [])
      /\ calls w' !! i = Some (Thrown a e)
      /\ (forall n, calls w' !! i <> Some (Returned a n))
      /\ nonces (manager w') = nonces (manager w).
Proof.
  intros w i a own e Hcall. cbn [exec]. rewrite Hcall.
  eexists. split; [reflexivity|].
  assert (Hi : calls (set_call i (Thrown a e) (release a own w)) !! i
               = Some (Thrown a e)).
  { cbn [set_call calls release].
    apply list_lookup_insert_eq. by eapply lookup_lt_Some. }
  split; [exact Hi|]. split; [|reflexivity].
  intros n. rewrite Hi. discriminate.
Qed.

(** The single caller of [waiting] sees its query time out. *)
Lemma query_failure_fails_the_reservation_example :
  calls waiting !! 0%nat = Some (AwaitCount "0xA" 0)
  /\ exists w',
      exec waiting (Reply 0 (inl timeout)) = Some (w', [])
      /\ calls w' !! 0%nat = Some (Thrown "0xA" timeout)
      /\ nonces (manager w') = nonces (manager waiting).
Proof.
  split; [reflexivity|].
  destruct (query_failure_fails_the_reservation waiting 0 "0xA" 0 timeout eq_refl)
    as (w' & Hexec & Hcall & _ & Hsame).
  exists w'. split; [exact Hexec|]. split; [exact Hcall | exact Hsame].
Defined.

(** C2, as the specification words it, fails: a sender whose local next
    value is 5 asks for a nonce, the query times out, and the call ends
    thrown, with no reservation made and no value returned. *)
Lemma query_failure_is_not_absorbed :
  exists w',
    getNextNonce (idle {["0xA" := 4]}) "0xA" (inl timeout) = Some (w', [])
    /\ calls w' = [Thrown "0xA" timeout]
    /\ ~ (exists n, calls w' !! 0%nat = Some (Returned "0xA" n)).
Proof.
  eexists. split; [vm_compute; reflexivity|].
  split; [reflexivity|].
  intros [n Hn]. discriminate Hn.
Qed.

(** C10. When the pending-count query rejects, the [finally] block still
    runs: the promise of this call is resolved, the lock entry of the sender
    is gone, and the stored nonces are untouched.  Callers that were waiting
    on this call can go on, a new call goes straight to the network, and its
    value is computed from the unchanged local state. *)
Theorem query_failure_releases_the_lock :
  forall (w : World) (i : nat) (a : string) (own : nat) (e : JsError),
    calls w !! i = Some (AwaitCount a own) ->
    exists w',
      exec w (Reply i (inl e)) = Some (w', [])
      /\ locks (manager w') !! a = None
      /\ own ∈ settled w'
      /\ nonces (manager w') = nonces (manager w)
      /\ (forall j, calls w' !! j = Some (AwaitLock a own) ->
           is_Some (exec w' (Resume j)))
      /\ (forall n, exists w'',
            getNextNonce w' a (inr n)
            = Some (w'', [mkReservation (length (calls w')) a n
                            (Z.max n (nextOf w a))])).
Proof.
  intros w i a own e Hcall. cbn [exec]. rewrite Hcall.
  eexists. split; [reflexivity|].
  assert (Hfree : locks (manager (set_call i (Thrown a e) (release a own w))) !! a
                  = None).
  { cbn [set_call release manager locks]. apply lookup_delete_eq. }
  split; [exact Hfree|].
  split; [cbn [set_call release settled]; set_solver|].
  split; [reflexivity|].
  split.
  - intros j Hj. cbn [exec]. rewrite Hj.
    rewrite decide_True by (cbn [set_call release settled]; set_solver).
    eexists. reflexivity.
  - intros n. destruct (getNextNonce_uncontended _ a n Hfree) as (w'' & Hrun & _).
    exists w''. exact Hrun.
Qed.

(** After the timeout the lock of the sender is free, its stored nonce is
    still 4, and the next call, told 3 by the network, returns 5. *)
Lemma query_failure_releases_the_lock_example :
  calls waiting !! 0%nat = Some (AwaitCount "0xA" 0)
  /\ exists w',
      exec waiting (Reply 0 (inl timeout)) = Some (w', [])
      /\ locks (manager w') !! "0xA" = None
      /\ nonces (manager w') = {["0xA" := 4]}
      /\ exists w'', getNextNonce w' "0xA" (inr 3)
                     = Some (w'', [mkReservation (length (calls w')) "0xA" 3 5]).
Proof.
  split; [reflexivity|].
  destruct (query_failure_releases_the_lock waiting 0 "0xA" 0 timeout eq_refl)
    as (w' & Hexec & Hfree & _ & Hsame & _ & Hnext).
  exists w'. split; [exact Hexec|]. split; [exact Hfree|].
  split; [exact Hsame|]. exact (Hnext 3).
Defined.

End NonceClaims.

(** * Properties of submission with retry *)

Section StringFacts.

Local Open Scope string_scope.

Lemma startsWith_spec (prefix : string) : forall s,
  Submission.startsWith s prefix = true <-> exists after, s = prefix ++ after.
Proof.
  induction prefix as [|a prefix IH]; intros s.
  - destruct s; simpl; split; eauto.
  - destruct s as [|b s]; simpl.
    + split; [discriminate|]. intros [after Heq]. discriminate Heq.
    + destruct (Ascii.eqb_spec a b) as [-> | Hne].
      * rewrite IH. split; intros [after Heq]; exists after.
        -- by rewrite Heq.
        -- by inversion Heq.
      * split; [discriminate|]. intros [after Heq]. inversion Heq. congruence.
Qed.

Lemma includes_spec (pattern : string) : forall text,
  Submission.includes text pattern = true <-> Submission.occurs pattern text.
Proof.
  unfold Submission.occurs. induction text as [|c text IH].
  - change (Submission.includes "" pattern)
      with (Submission.startsWith "" pattern || false).
    rewrite orb_false_r, startsWith_spec. split.
    + intros [after Heq]. by exists "", after.
    + intros ([|b before] & after & Heq); [by exists after | discriminate Heq].
  - change (Submission.includes (String c text) pattern)
      with (Submission.startsWith (String c text) pattern
            || Submission.includes text pattern).
    rewrite orb_true_iff, startsWith_spec, IH. split.
    + intros [[after Heq] | (before & after & Heq)].
      * by exists "", after.
      * exists (String c before), after. by rewrite Heq.
    + intros ([|b before] & after & Heq).
      * left. by exists after.
      * right. exists before, after. by inversion Heq.
Qed.

(** The [catch] clause goes on exactly when the message of the error
    contains the text 'blockhash'. *)
Lemma retryable_spec (e : JsError) :
  Submission.retryable e = true <-> Submission.occurs "blockhash" (message e).
Proof. apply includes_spec. Qed.

Lemma not_retryable_spec (e : JsError) :
  Submission.retryable e = false <-> ~ Submission.occurs "blockhash" (message e).
Proof.
  rewrite <- retryable_spec. destruct (Submission.retryable e); split; try done.
Qed.

End StringFacts.

Section SubmissionFacts.

Import Submission.

Context {Body Receipt State : Type}.
Variable getLatestBlockhash : State -> (JsError + string) * State.
Variable sendTransaction : Transaction Body -> State -> (JsError + Receipt) * State.

Abbreviation attempts := (Submission.attempts getLatestBlockhash sendTransaction).
Abbreviation Call := (ClientCall Body Receipt).

Lemma retried_nil : retried_only_if_retryable (@nil Call).
Proof. intros [|? ?] ? ? ? Heq; discriminate Heq. Qed.

Lemma retried_cons (call : Call) t :
  (forall e, failure_of call = Some e -> t <> [] -> retryable e = true) ->
  retried_only_if_retryable t ->
  retried_only_if_retryable (call :: t).
Proof.
  intros Hhead Htail before c later e Heq Hf Hne.
  destruct before as [|b before]; simpl in Heq; inversion Heq; subst.
  - eapply Hhead; eauto.
  - eapply Htail; eauto.
Qed.

Lemma surfaced_nil (final : JsError + Receipt) : surfaced_at_once (@nil Call) final.
Proof. intros [|? ?] ? ? ? Heq; discriminate Heq. Qed.

Lemma surfaced_cons (call : Call) t (final : JsError + Receipt) :
  (forall e, failure_of call = Some e -> retryable e = false ->
             t = [] /\ final = inl e) ->
  surfaced_at_once t final ->
  surfaced_at_once (call :: t) final.
Proof.
  intros Hhead Htail before c later e Heq Hf Hnr.
  destruct before as [|b before]; simpl in Heq; inversion Heq; subst.
  - eapply Hhead; eauto.
  - eapply Htail; eauto.
Qed.

Lemma last_cons_keep {A} (x y : A) l : last l = Some y -> last (x :: l) = Some y.
Proof. intros H. rewrite last_cons, H. reflexivity. Qed.

(** One more iteration in front of a run, ended by a retryable error. *)
Lemma verdict_retry_blockhash bound (r : Run Body Receipt State) e :
  retryable e = true ->
  verdict bound r ->
  verdict (S bound) (after (AskedBlockhash (inl e)) r).
Proof.
  intros Hr [(receipt & tx' & Hok & Hlast) | [(e' & Hout & Hnr & Hlast) | (Hout & Hit & Hlen & Hall)]].
  - left. exists receipt, tx'. split; [exact Hok|].
    cbn [after transcript]. by repeat apply last_cons_keep.
  - right; left. exists e'. repeat split; auto.
    cbn [after transcript failures]. by apply last_cons_keep.
  - right; right. unfold gave_up. cbn [after transcript outcome failures iterations].
    repeat split; auto. simpl. by rewrite Hlen.
Qed.

Lemma verdict_retry_sent bound (r : Run Body Receipt State) h tx e :
  retryable e = true ->
  verdict bound r ->
  verdict (S bound) (after (AskedBlockhash (inr h)) (after (Sent tx (inl e)) r)).
Proof.
  intros Hr [(receipt & tx' & Hok & Hlast) | [(e' & Hout & Hnr & Hlast) | (Hout & Hit & Hlen & Hall)]].
  - left. exists receipt, tx'. split; [exact Hok|].
    cbn [after transcript]. by repeat apply last_cons_keep.
  - right; left. exists e'. repeat split; auto.
    cbn [after transcript failures]. by apply last_cons_keep.
  - right; right. unfold gave_up. cbn [after transcript outcome failures iterations].
    repeat split; auto. simpl. by rewrite Hlen.
Qed.

Ltac six := split; [|split; [|split; [|split; [|split]]]].

(** Everything the loop guarantees, for any number of iterations left. *)
Lemma attempts_spec (n : nat) : forall (tx : Transaction Body) (c : State),
  let r := attempts n tx c in
  (iterations (transcript r) <= n)%nat
  /\ (length (submissions (transcript r)) <= iterations (transcript r))%nat
  /\ retried_only_if_retryable (transcript r)
  /\ surfaced_at_once (transcript r) (outcome r)
  /\ verdict n r
  /\ refreshed (body tx) (transcript r).
Proof.
  induction n as [|n IH]; intros tx c; cbv zeta.
  - cbn [Submission.attempts transcript outcome iterations submissions length refreshed].
    six; auto using retried_nil, surfaced_nil.
    right; right. unfold gave_up. cbn. split_and!; auto.
  - cbn [Submission.attempts].
    destruct (getLatestBlockhash c) as [[e | h] c1].
    + destruct (retryable e) eqn:Hre.
      * destruct (IH tx c1) as (Hit & Hsub & Hret & Hsur & Hver & Hfresh).
        cbn [after transcript outcome iterations submissions refreshed].
        six; [lia | lia | | | | exact Hfresh].
        -- apply retried_cons; [|exact Hret]. intros e' He' _.
           inversion He'; subst. exact Hre.
        -- apply surfaced_cons; [|exact Hsur]. intros e' He' Hnr.
           inversion He'; subst. congruence.
        -- by apply verdict_retry_blockhash.
      * cbn [transcript outcome iterations submissions length refreshed].
        six; [lia | lia | | | | exact I].
        -- apply retried_cons; [|apply retried_nil]. intros e' _ Hne. by destruct Hne.
        -- apply surfaced_cons; [|apply surfaced_nil]. intros e' He' _.
           inversion He'; subst. auto.
        -- right; left. exists e. auto.
    + destruct (sendTransaction (with_blockhash h tx) c1) as [[e | receipt] c2].
      * destruct (retryable e) eqn:Hre.
        -- destruct (IH (with_blockhash h tx) c2) as (Hit & Hsub & Hret & Hsur & Hver & Hfresh).
           cbn [after transcript outcome iterations submissions length refreshed].
           six; [lia | lia | | | | split; [reflexivity | exact Hfresh]].
           ++ apply retried_cons; [intros e' He'; discriminate He'|].
              apply retried_cons; [|exact Hret]. intros e' He' _.
              inversion He'; subst. exact Hre.
           ++ apply surfaced_cons; [intros e' He'; discriminate He'|].
              apply surfaced_cons; [|exact Hsur]. intros e' He' Hnr.
              inversion He'; subst. congruence.
           ++ by apply verdict_retry_sent.
        -- cbn [transcript outcome iterations submissions length refreshed].
           six; [lia | lia | | | | split; [reflexivity | exact I]].
           ++ apply retried_cons; [intros e' He'; discriminate He'|].
              apply retried_cons; [|apply retried_nil]. intros e' _ Hne. by destruct Hne.
           ++ apply surfaced_cons; [intros e' He'; discriminate He'|].
              apply surfaced_cons; [|apply surfaced_nil]. intros e' He' _.
              inversion He'; subst. auto.
           ++ right; left. exists e. auto.
      * cbn [transcript outcome iterations submissions length refreshed].
        six; [lia | lia | | | | split; [reflexivity | exact I]].
        -- apply retried_cons; [intros e' He'; discriminate He'|].
           apply retried_cons; [intros e' He'; discriminate He'|apply retried_nil].
        -- apply surfaced_cons; [intros e' He'; discriminate He'|].
           apply surfaced_cons; [intros e' He'; discriminate He'|apply surfaced_nil].
        -- left. exists receipt, (with_blockhash h tx). split; reflexivity.
Qed.

Lemma failures_app (t1 t2 : list Call) :
  failures (t1 ++ t2) = (failures t1 ++ failures t2)%list.
Proof.
  induction t1 as [|[[e | h] | tx [e | receipt]] t1 IH]; simpl; by rewrite ?IH.
Qed.

Lemma failures_singleton (call : Call) e :
  failure_of call = Some e -> failures [call] = [e].
Proof.
  destruct call as [[e' | h] | tx [e' | receipt]]; simpl; congruence.
Qed.

(** A run whose last client call failed with a retryable error has run out
    of iterations. *)
Lemma verdict_last_retryable bound (r : Run Body Receipt State) before call e :
  verdict bound r ->
  transcript r = (before ++ [call])%list ->
  failure_of call = Some e ->
  retryable e = true ->
  outcome r = inl expired /\ iterations (transcript r) = bound.
Proof.
  intros [(receipt & tx' & Hok & Hlast) | [(e' & Hout & Hnr & Hlast) | (Hout & Hit & _)]]
         Heq Hfail Hre.
  - rewrite Heq, last_snoc in Hlast. inversion Hlast; subst. discriminate Hfail.
  - rewrite Heq, failures_app, (failures_singleton _ _ Hfail), last_snoc in Hlast.
    congruence.
  - by split.
Qed.

Lemma refreshed_bodies_bounded (b : Body) (n : nat) : forall t : list Call,
  (length t <= n)%nat ->
  refreshed b t ->
  Forall (fun tx => body tx = b) (submissions t).
Proof.
  induction n as [|n IH]; intros t Hlen Hfresh.
  - destruct t; [constructor | simpl in Hlen; lia].
  - destruct t as [|[[e | h] | tx rs] t]; simpl in *.
    + constructor.
    + apply IH; [lia | exact Hfresh].
    + destruct t as [|[rb | tx rs] t]; simpl in *; try contradiction.
      destruct Hfresh as [-> Hfresh]. constructor; [reflexivity|].
      apply IH; [lia | exact Hfresh].
    + contradiction.
Qed.

Lemma refreshed_bodies (b : Body) (t : list Call) :
  refreshed b t -> Forall (fun tx => body tx = b) (submissions t).
Proof. apply (refreshed_bodies_bounded b (length t)). lia. Qed.

End SubmissionFacts.

Section SubmissionClaims.

Import Submission.

Context {Body Receipt State : Type}.
Variable getLatestBlockhash : State -> (JsError + string) * State.
Variable sendTransaction : Transaction Body -> State -> (JsError + Receipt) * State.

(** C3, as the code has it.  [submitWithRetry] goes by the message of the
    error alone, whether the blockhash request or the submission failed,
    and whatever kind of failure it was.  A failed client call is followed
    by another iteration only when the message contains the text
    'blockhash'; an error whose message does not contain it ends the run at
    once and is what the caller gets; an error whose message contains it is
    never what the caller gets: when it is the last thing that happened, the
    iterations have run out and the caller gets 'Transaction expired'.
    There are never more submissions, nor more iterations, than
    [maxRetries] (3 when omitted). *)
Theorem submitWithRetry_retry_policy :
  forall (tx : Transaction Body) (maxRetries : option Z) (c : State),
    let r := submitWithRetry getLatestBlockhash sendTransaction tx maxRetries c in
    let bound := Z.to_nat (default 3 maxRetries) in
    (forall before call later e,
        transcript r = before ++ call :: later ->
        failure_of call = Some e ->
        (later <> [] -> occurs "blockhash" (message e))
        /\ (~ occurs "blockhash" (message e) -> later = [] /\ outcome r = inl e)
        /\ (occurs "blockhash" (message e) -> later = [] ->
            outcome r = inl expired /\ iterations (transcript r) = bound))
    /\ (length (submissions (transcript r)) <= bound)%nat
    /\ (iterations (transcript r) <= bound)%nat
    /\ (maxRetries = None -> bound = 3%nat)
    /\ ((exists receipt tx', outcome r = inr receipt
                             /\ last (transcript r) = Some (Sent tx' (inr receipt)))
        \/ (exists e, outcome r = inl e /\ ~ occurs "blockhash" (message e)
                      /\ last (failures (transcript r)) = Some e)
        \/ (outcome r = inl expired
            /\ iterations (transcript r) = bound
            /\ length (failures (transcript r)) = bound
            /\ Forall (fun e => occurs "blockhash" (message e))
                 (failures (transcript r)))).
Proof.
  intros tx maxRetries c r bound. subst r. unfold submitWithRetry. fold bound.
  destruct (attempts_spec getLatestBlockhash sendTransaction bound tx c)
    as (Hit & Hsub & Hret & Hsur & Hver & _).
  split; [|split; [lia|]; split; [exact Hit|]; split; [intros ->; reflexivity|]].
  - intros before call later e Heq Hfail. split; [|split].
    + intros Hlater. apply retryable_spec. by eapply Hret.
    + intros Hno. apply not_retryable_spec in Hno. by eapply Hsur.
    + intros Hocc ->. apply retryable_spec in Hocc.
      by eapply verdict_last_retryable.
  - destruct Hver as [Hok | [(e & Hout & Hnr & Hlast) | (Hout & Hiter & Hlen & Hall)]].
    + by left.
    + right; left. exists e. split; [exact Hout|].
      split; [by apply not_retryable_spec | exact Hlast].
    + right; right. split; [exact Hout|]. split; [exact Hiter|].
      split; [exact Hlen|].
      eapply Forall_impl; [exact Hall|]. intros e He. by apply retryable_spec.
Qed.

(** C6, as the code has it.  Before every submission the loop asks the
    client for its latest blockhash and stores the answer in the
    transaction; nothing else of the transaction changes.  So a resubmitted
    transaction differs from an earlier one exactly when the client answered
    with a different blockhash. *)
Theorem resubmission_carries_the_latest_blockhash :
  forall (tx : Transaction Body) (maxRetries : option Z) (c : State),
    let r := submitWithRetry getLatestBlockhash sendTransaction tx maxRetries c in
    refreshed (body tx) (transcript r)
    /\ Forall (fun t => body t = body tx) (submissions (transcript r))
    /\ (forall t1 t2,
          t1 ∈ submissions (transcript r) ->
          t2 ∈ submissions (transcript r) ->
          (t1 = t2 <-> blockhash t1 = blockhash t2)).
Proof.
  intros tx maxRetries c r. subst r. unfold submitWithRetry.
  destruct (attempts_spec getLatestBlockhash sendTransaction
              (Z.to_nat (default 3 maxRetries)) tx c) as (_ & _ & _ & _ & _ & Hfresh).
  pose proof (refreshed_bodies _ _ Hfresh) as Hbodies.
  split; [exact Hfresh|]. split; [exact Hbodies|].
  intros t1 t2 H1 H2. rewrite Forall_forall in Hbodies.
  pose proof (Hbodies _ H1) as B1. pose proof (Hbodies _ H2) as B2.
  destruct t1 as [b1 h1], t2 as [b2 h2]; simpl in *. subst.
  split; intros Heq; [by inversion Heq | by rewrite Heq].
Qed.

End SubmissionClaims.

(** C3, as the specification words it, fails.  The connection drops during
    the first submission: the transport failure is what the caller gets,
    after that one submission, although the client would have answered a
    second one.  And a rejection for a malformed field, which is not the
    rejection for an expired block reference, is resubmitted because its
    message mentions 'blockhash', until the iterations have run out; the
    caller is told 'Transaction expired' and never sees the rejection. *)
Lemma retry_goes_by_the_message_alone :
  (Submission.outcome
     (Submission.Scripted.submitWithRetry
        Submission.Scripted.transfer None Submission.Scripted.connection_drops)
   = inl Submission.Scripted.offline
   /\ length (Submission.submissions
                (Submission.transcript
                   (Submission.Scripted.submitWithRetry
                      Submission.Scripted.transfer None
                      Submission.Scripted.connection_drops))) = 1%nat)
  /\ (Submission.outcome
        (Submission.Scripted.submitWithRetry
           Submission.Scripted.transfer None Submission.Scripted.always_malformed)
      = inl Submission.expired
      /\ Submission.failures
           (Submission.transcript
              (Submission.Scripted.submitWithRetry
                 Submission.Scripted.transfer None
                 Submission.Scripted.always_malformed))
         = [Submission.Scripted.malformed; Submission.Scripted.malformed;
            Submission.Scripted.malformed]
      /\ length (Submission.submissions
                   (Submission.transcript
                      (Submission.Scripted.submitWithRetry
                         Submission.Scripted.transfer None
                         Submission.Scripted.always_malformed))) = 3%nat).
Proof. vm_compute. split_and!; reflexivity. Qed.

(** C6, as the specification words it, fails: the submission is rejected
    for an expired blockhash, the client still reports the same latest
    blockhash, and the very same transaction is submitted again. *)
Lemma stale_blockhash_is_resubmitted :
  exists t1 t2,
    Submission.submissions
      (Submission.transcript
         (Submission.Scripted.submitWithRetry
            Submission.Scripted.transfer None Submission.Scripted.stale_blockhash))
    = [t1; t2]
    /\ Submission.failures
         (Submission.transcript
            (Submission.Scripted.submitWithRetry
               Submission.Scripted.transfer None Submission.Scripted.stale_blockhash))
       = [mkError "blockhash expired"]
    /\ Submission.blockhash t2 = Submission.blockhash t1
    /\ t2 = t1.
Proof. do 2 eexists. vm_compute. split_and!; reflexivity. Qed.

(** Three answers of the scripted client, three ways to end: accepted on
    the retry; rejected for a used nonce, at once; and out of iterations. *)
Example retry_then_accepted :
  Submission.outcome
    (Submission.Scripted.submitWithRetry
       Submission.Scripted.transfer None Submission.Scripted.stale_blockhash)
  = inr "receipt".
Proof. reflexivity. Qed.

Example rejection_is_not_retried :
  let r := Submission.Scripted.submitWithRetry
             Submission.Scripted.transfer None
             Submission.Scripted.expired_then_rejected in
  Submission.outcome r = inl (mkError "nonce too low")
  /\ length (Submission.submissions (Submission.transcript r)) = 2%nat.
Proof. split; reflexivity. Qed.

Example transport_failure_is_not_retried :
  let r := Submission.Scripted.submitWithRetry Submission.Scripted.transfer None [] in
  Submission.outcome r = inl Submission.Scripted.offline
  /\ Submission.iterations (Submission.transcript r) = 1%nat.
Proof. split; reflexivity. Qed.

Example bound_is_three_by_default :
  let r := Submission.Scripted.submitWithRetry
             Submission.Scripted.transfer None
             (concat (replicate 5 [Submission.Scripted.Blockhash (inr "0xaa");
                                   Submission.Scripted.Submit
                                     (inl (mkError "blockhash expired"))])) in
  Submission.outcome r = inl Submission.expired
  /\ length (Submission.submissions (Submission.transcript r)) = 3%nat.
Proof. split; reflexivity. Qed.

(** * Properties of signature parsing *)

Section SignatureFacts.

Import Signature.
Local Open Scope string_scope.

Lemma substring_prefix (a b : string) (k : nat) :
  String.length a = k -> substring 0 k (a ++ b) = a.
Proof.
  revert k. induction a as [|c a IH]; intros k Hk; simpl in Hk; subst k.
  - destruct b; reflexivity.
  - simpl. f_equal. by apply IH.
Qed.

Lemma substring_drop (a b : string) (n m k : nat) :
  String.length a = k -> substring (k + n) m (a ++ b) = substring n m b.
Proof.
  revert k. induction a as [|c a IH]; intros k Hk; simpl in Hk; subst k.
  - reflexivity.
  - simpl. by apply IH.
Qed.

Lemma hexOfBytes_cons upper (b : Byte.byte) (l : list Byte.byte) :
  hexOfBytes upper (b :: l)
  = String (nibble upper (Byte.to_N b / 16)%N)
      (String (nibble upper (Byte.to_N b mod 16)%N) (hexOfBytes upper l)).
Proof. reflexivity. Qed.

Lemma hexOfBytes_app upper (l1 l2 : list Byte.byte) :
  hexOfBytes upper (l1 ++ l2) = hexOfBytes upper l1 ++ hexOfBytes upper l2.
Proof.
  induction l1 as [|b l1 IH]; [reflexivity|].
  rewrite <- app_comm_cons, !hexOfBytes_cons, IH. reflexivity.
Qed.

Lemma hexOfBytes_length upper (l : list Byte.byte) :
  String.length (hexOfBytes upper l) = (2 * length l)%nat.
Proof.
  induction l as [|b l IH]; [reflexivity|].
  rewrite hexOfBytes_cons. cbn [String.length length]. rewrite IH. lia.
Qed.

(** The three slices of [0x] followed by 64 + 64 + more characters. *)
Lemma slices_of_signature (a b c : string) :
  String.length a = 64%nat ->
  String.length b = 64%nat ->
  slice ("0x" ++ a ++ b ++ c) 2 66 = a
  /\ slice ("0x" ++ a ++ b ++ c) 66 130 = b
  /\ slice ("0x" ++ a ++ b ++ c) 130 132 = substring 0 2 c.
Proof.
  intros Ha Hb. unfold slice. split; [|split].
  - exact (substring_prefix a (b ++ c) 64 Ha).
  - transitivity (substring 0 64 (b ++ c)).
    + exact (substring_drop a (b ++ c) 0 64 64 Ha).
    + exact (substring_prefix b c 64 Hb).
  - transitivity (substring 64 2 (b ++ c)).
    + exact (substring_drop a (b ++ c) 64 2 64 Ha).
    + exact (substring_drop b c 0 2 64 Hb).
Qed.

(** Two hexadecimal digits read back as the byte they spell. *)
Lemma parseInt16_hexOfByte upper (b : Byte.byte) :
  parseInt16 (hexOfByte upper b) = Some (byteValue b).
Proof. destruct upper; destruct b; vm_compute; reflexivity. Qed.

(** A list of 65 bytes is 32 bytes, 32 bytes and one more. *)
Lemma split_65 (bs : list Byte.byte) :
  length bs = 65%nat ->
  exists recovery,
    bs !! 64%nat = Some recovery
    /\ bs = (take 32 bs ++ take 32 (drop 32 bs) ++ [recovery])%list.
Proof.
  intros Hlen.
  destruct (drop 64 bs) as [|x [|y rest]] eqn:Hd.
  - apply (f_equal length) in Hd. rewrite length_drop in Hd. simpl in Hd. lia.
  - exists x. split.
    + rewrite <- (Nat.add_0_r 64), <- lookup_drop, Hd. reflexivity.
    + rewrite <- Hd. change (drop 64 bs) with (drop (32 + 32) bs).
      rewrite <- (drop_drop bs 32 32), !take_drop. reflexivity.
  - apply (f_equal length) in Hd. rewrite length_drop in Hd. simpl in Hd. lia.
Qed.

(** C7. For every raw signature of 65 bytes, written in hexadecimal in
    either case, [parseSignature] returns [r] = bytes 0..31, [s] = bytes
    32..63, and [v] = 2 * chainId + 35 + recovery bit, where the recovery bit
    is the last byte, less 27 when it is at least 27; so 27 and 28 become 0
    and 1, and 0 and 1 stay.  The steps written inline in [sendTransaction]
    give the same result for chain 6343. *)
Theorem parseSignature_decomposes_raw_signature :
  forall (upper : bool) (bs : list Byte.byte) (chainId : Z),
    length bs = 65%nat ->
    exists recovery : Byte.byte,
      bs !! 64%nat = Some recovery
      /\ parseSignature (toHex upper bs) chainId
         = Some {| r := toHex upper (take 32 bs);
                   s := toHex upper (take 32 (drop 32 bs));
                   v := (2 * chainId + 35 + normalize (byteValue recovery))%Z |}
      /\ normalize (byteValue recovery)
         = (if (27 <=? byteValue recovery)%Z
            then (byteValue recovery - 27)%Z else byteValue recovery)
      /\ (normalize 0 = 0%Z /\ normalize 1 = 1%Z
          /\ normalize 27 = 0%Z /\ normalize 28 = 1%Z)
      /\ sendTransaction_parse (toHex upper bs)
         = parseSignature (toHex upper bs) CHAIN_ID.
Proof.
  intros upper bs chainId Hlen.
  destruct (split_65 bs Hlen) as (recovery & Hlast & Hbs).
  exists recovery. split; [exact Hlast|].
  split; [|split; [|split; [repeat split | reflexivity]]].
  - assert (HR : String.length (hexOfBytes upper (take 32 bs)) = 64%nat).
    { rewrite hexOfBytes_length, length_take. lia. }
    assert (HS : String.length (hexOfBytes upper (take 32 (drop 32 bs))) = 64%nat).
    { rewrite hexOfBytes_length, length_take, length_drop. lia. }
    pose proof (f_equal (hexOfBytes upper) Hbs) as Hhex.
    rewrite !hexOfBytes_app in Hhex.
    destruct (slices_of_signature _ _ (hexOfBytes upper [recovery]) HR HS)
      as (Hr & Hs & Hv).
    unfold parseSignature, toHex. rewrite Hhex, Hr, Hs, Hv.
    change (substring 0 2 (hexOfBytes upper [recovery]))
      with (hexOfByte upper recovery).
    rewrite parseInt16_hexOfByte. do 2 f_equal. lia.
  - unfold normalize.
    destruct (Z.geb_spec (byteValue recovery) 27), (Z.leb_spec 27 (byteValue recovery));
      lia.
Qed.

(** A sample signature with recovery byte 28 on chain 6343:
    v = 2 * 6343 + 35 + 1. *)
Lemma parseSignature_sample :
  length sample = 65%nat
  /\ parseSignature (toHex false sample) 6343
     = Some {| r := "0x6161616161616161616161616161616161616161616161616161616161616161";
               s := "0x6262626262626262626262626262626262626262626262626262626262626262";
               v := 12722%Z |}.
Proof.
  split; [reflexivity|].
  destruct (parseSignature_decomposes_raw_signature false sample 6343 eq_refl)
    as (recovery & Hlast & Hparse & _).
  inversion Hlast; subst recovery. exact Hparse.
Defined.

End SignatureFacts.

(** * Properties of the signing warmup *)

Section WarmupFacts.

Import Warmup.

Lemma run_app (acts1 acts2 : list Action) : forall h,
  run h (acts1 ++ acts2)
  = match run h acts1 with Some h1 => run h1 acts2 | None => None end.
Proof.
  induction acts1 as [|act acts1 IH]; intros h; simpl; [reflexivity|].
  destruct (exec h act); [apply IH | reflexivity].
Qed.

(** [n] effect runs on a hook that is not warmed up all pass the guard. *)
Lemma run_effects (n : nat) : forall k l,
  run {| isWarmedUp := false; signRequests := k; runs := l |}
      (replicate n (Effect true))
  = Some {| isWarmedUp := false; signRequests := k;
            runs := l ++ replicate n AwaitProvider |}.
Proof.
  induction n as [|n IH]; intros k l; simpl.
  - by rewrite app_nil_r.
  - rewrite IH, <- app_assoc. reflexivity.
Qed.

Lemma iter_S (n k : nat) : Nat.iter n S k = (n + k)%nat.
Proof. induction n; simpl; congruence. Qed.

Lemma iter_same {A} (n : nat) (x : A) : Nat.iter n (fun y => y) x = x.
Proof. induction n; simpl; congruence. Qed.

(** One phase of the side-by-side schedule: the same segment for the runs
    [i, i+1, ..., i+m-1], each of them in state [a] and moved to [b]. *)
Lemma run_phase (act : nat -> Action) (a b : EffectRun)
    (f : bool -> bool) (g : nat -> nat) :
  (forall h i, runs h !! i = Some a -> exec h (act i) = Some (bump f g i b h)) ->
  forall m i w k,
    run {| isWarmedUp := w; signRequests := k;
           runs := replicate i b ++ replicate m a |}
        (map act (seq i m))
    = Some {| isWarmedUp := Nat.iter m f w; signRequests := Nat.iter m g k;
              runs := replicate (i + m) b |}.
Proof.
  intros Hstep. induction m as [|m IH]; intros i w k.
  - simpl. by rewrite app_nil_r, Nat.add_0_r.
  - cbn [seq map run]. rewrite Hstep.
    2:{ cbn [runs]. apply list_lookup_middle. by rewrite length_replicate. }
    unfold bump. cbn [runs isWarmedUp signRequests].
    rewrite insert_app_r_alt by (rewrite length_replicate; lia).
    rewrite length_replicate, Nat.sub_diag. cbn [replicate].
    change (<[0%nat := b]> (a :: replicate m a)) with (b :: replicate m a).
    rewrite (cons_middle b), app_assoc, <- replicate_cons_app.
    change (b :: replicate i b) with (replicate (S i) b).
    rewrite IH. rewrite <- !Nat.iter_succ_r, Nat.add_succ_r. reflexivity.
Qed.

Lemma run_concurrently (n : nat) :
  run mounted (concurrently n)
  = Some {| isWarmedUp := Nat.iter n (fun _ => true) false;
            signRequests := n; runs := replicate n Ready |}.
Proof.
  unfold concurrently, mounted.
  rewrite run_app, run_effects. cbn [app].
  rewrite run_app.
  rewrite (run_phase (fun i => ProviderSettled i (inr tt))
             AwaitProvider AwaitBlockNumber (fun y => y) (fun y => y)
             ltac:(intros h i Hi; cbn [exec]; rewrite Hi; reflexivity) n 0).
  rewrite run_app.
  rewrite (run_phase (fun i => BlockNumberSettled i (inr 0))
             AwaitBlockNumber AwaitTimer (fun y => y) (fun y => y)
             ltac:(intros h i Hi; cbn [exec]; rewrite Hi; reflexivity) n 0).
  rewrite run_app.
  rewrite (run_phase TimerFired AwaitTimer AwaitSign (fun y => y) S
             ltac:(intros h i Hi; cbn [exec]; rewrite Hi; reflexivity) n 0).
  rewrite (run_phase (fun i => SignSettled i (inr "0x"))
             AwaitSign Ready (fun _ => true) (fun y => y)
             ltac:(intros h i Hi; cbn [exec]; rewrite Hi; reflexivity) n 0).
  rewrite !iter_same, iter_S, Nat.add_0_r. reflexivity.
Qed.

Lemma count_app p (l1 l2 : list EffectRun) :
  count p (l1 ++ l2) = (count p l1 + count p l2)%nat.
Proof. unfold count. by rewrite List.filter_app, length_app. Qed.

Lemma count_cons p (x : EffectRun) l :
  count p (x :: l) = ((if p x then 1 else 0) + count p l)%nat.
Proof. unfold count. simpl. by destruct (p x). Qed.

(** Moving one run from [x] to [y] moves the count by what [x] and [y]
    contribute. *)
Lemma count_insert p (l : list EffectRun) i x y :
  l !! i = Some x ->
  (count p (<[i := y]> l) + (if p x then 1 else 0)
   = count p l + (if p y then 1 else 0))%nat.
Proof.
  intros Hi.
  rewrite insert_take_drop by (by eapply lookup_lt_Some).
  rewrite <- (take_drop_middle l i x Hi) at 3.
  rewrite !count_app, !count_cons. lia.
Qed.

Lemma exec_accounted h act h' :
  exec h act = Some h' -> accounted h -> accounted h'.
Proof.
  unfold accounted. intros Hexec [Hlo Hhi].
  destruct act as [hasWallet | i r | i r | i | i r]; cbn [exec] in Hexec.
  - inversion Hexec; subst; clear Hexec. cbn [runs signRequests].
    rewrite !count_app, !count_cons.
    change (count hasSigned []) with 0%nat. change (count maySign []) with 0%nat.
    destruct (negb hasWallet || isWarmedUp h); simpl; lia.
  - destruct (runs h !! i) as [[]|] eqn:Hi; try discriminate.
    inversion Hexec; subst; clear Hexec. cbn [set_run runs signRequests].
    pose proof (count_insert hasSigned _ _ _
                  (match r with inr _ => AwaitBlockNumber | inl e => Rejected e end) Hi).
    pose proof (count_insert maySign _ _ _
                  (match r with inr _ => AwaitBlockNumber | inl e => Rejected e end) Hi).
    destruct r; simpl in *; lia.
  - destruct (runs h !! i) as [[]|] eqn:Hi; try discriminate.
    inversion Hexec; subst; clear Hexec. cbn [set_run runs signRequests].
    pose proof (count_insert hasSigned _ _ _
                  (match r with inr _ => AwaitTimer | inl e => Rejected e end) Hi).
    pose proof (count_insert maySign _ _ _
                  (match r with inr _ => AwaitTimer | inl e => Rejected e end) Hi).
    destruct r; simpl in *; lia.
  - destruct (runs h !! i) as [[]|] eqn:Hi; try discriminate.
    inversion Hexec; subst; clear Hexec. cbn [runs signRequests].
    pose proof (count_insert hasSigned _ _ _ AwaitSign Hi).
    pose proof (count_insert maySign _ _ _ AwaitSign Hi).
    simpl in *; lia.
  - destruct (runs h !! i) as [[]|] eqn:Hi; try discriminate.
    destruct r as [e | sig]; inversion Hexec; subst; clear Hexec;
      cbn [set_run runs signRequests].
    + pose proof (count_insert hasSigned _ _ _ (Rejected e) Hi).
      pose proof (count_insert maySign _ _ _ (Rejected e) Hi).
      simpl in *; lia.
    + pose proof (count_insert hasSigned _ _ _ Ready Hi).
      pose proof (count_insert maySign _ _ _ Ready Hi).
      simpl in *; lia.
Qed.

Lemma run_accounted acts : forall h h',
  run h acts = Some h' -> accounted h -> accounted h'.
Proof.
  induction acts as [|act acts IH]; intros h h' Hrun Hacc; simpl in Hrun.
  - by inversion Hrun; subst.
  - destruct (exec h act) as [h1|] eqn:Hexec; [|discriminate].
    eapply IH; [exact Hrun|]. by eapply exec_accounted.
Qed.

(** A signing request that fails leaves [isWarmedUp.current] as it was. *)
Lemma failed_signing_leaves_flag h i e :
  runs h !! i = Some AwaitSign ->
  exists h', exec h (SignSettled i (inl e)) = Some h'
             /\ isWarmedUp h' = isWarmedUp h
             /\ signRequests h' = signRequests h.
Proof.
  intros Hi. cbn [exec]. rewrite Hi. eexists. split; [reflexivity|].
  split; reflexivity.
Qed.

Lemma count_all_ready n : count hasSigned (replicate n Ready) = n.
Proof. induction n as [|n IH]; [reflexivity|]. cbn [replicate]. rewrite count_cons, IH. reflexivity. Qed.

Lemma count_le_length p (l : list EffectRun) : (count p l <= length l)%nat.
Proof.
  induction l as [|x l IH]; [reflexivity|].
  rewrite count_cons. cbn [length]. destruct (p x); lia.
Qed.

End WarmupFacts.

Section WarmupClaims.

Import Warmup.

Context {State : Type}.
Variable getEthereumProvider : State -> (JsError + unit) * State.
Variable secp256k1_sign : string -> State -> (JsError + string) * State.

(** C9, as the code has it.  When the first signing request of [warmup]
    fails, the function sleeps 500 ms and issues exactly one more signing
    request, two in all.  If that one fails too, the promise of [warmup()]
    rejects with its error (the first error is dropped); if it succeeds,
    the promise fulfils.  Either way the effect that started the warmup
    returns [undefined] and has let go of the promise, so the rejection
    reaches no caller; and the hook keeps no state that would tell a failed
    warmup from one that went through. *)
Theorem warmup_retries_once_then_rejects :
  forall (c c0 c1 : State) (e1 : JsError),
    getEthereumProvider c = (inr tt, c0) ->
    secp256k1_sign dummyHash c0 = (inl e1, c1) ->
    let attempt := warmup getEthereumProvider secp256k1_sign c in
    let second := fst (secp256k1_sign dummyHash c1) in
    steps attempt
    = [Slept 100; Signed dummyHash (inl e1); Slept 500; Signed dummyHash second]
    /\ length (signingCalls attempt) = 2%nat
    /\ (forall e2, second = inl e2 -> outcome attempt = inl e2)
    /\ (forall sig, second = inr sig -> outcome attempt = inr tt)
    /\ useSigningWarmup getEthereumProvider secp256k1_sign (Some c)
       = {| returned := inr tt; floating := Some attempt |}.
Proof.
  intros c c0 c1 e1 Hprovider Hfirst attempt second.
  subst attempt second. unfold useSigningWarmup, warmup, signingCalls.
  rewrite Hprovider, Hfirst.
  destruct (secp256k1_sign dummyHash c1) as [[e2 | sig] c2];
    cbn [fst steps outcome List.filter isSigned length].
  - split; [reflexivity|]. split; [reflexivity|]. split; [|split; [|reflexivity]].
    + intros e Heq. by inversion Heq.
    + intros sig Heq. discriminate Heq.
  - split; [reflexivity|]. split; [reflexivity|]. split; [|split; [|reflexivity]].
    + intros e Heq. discriminate Heq.
    + intros sig' Heq. reflexivity.
Qed.

End WarmupClaims.

(** The scenario of the specification: the signer fails twice in a row.
    Two signing requests were made, and the promise of [warmup()] rejects
    with the second failure. *)
Lemma warmup_fails_twice :
  Warmup.Scripted.getEthereumProvider Warmup.Scripted.failing_twice
  = (inr tt, Warmup.Scripted.failing_twice)
  /\ Warmup.Scripted.secp256k1_sign Warmup.dummyHash Warmup.Scripted.failing_twice
     = (inl (mkError "signer not initialised"),
        [inl (mkError "signer still not initialised")])
  /\ Warmup.outcome (Warmup.Scripted.warmup Warmup.Scripted.failing_twice)
     = inl (mkError "signer still not initialised")
  /\ length (Warmup.signingCalls (Warmup.Scripted.warmup Warmup.Scripted.failing_twice))
     = 2%nat.
Proof.
  split; [reflexivity|]. split; [reflexivity|].
  destruct (warmup_retries_once_then_rejects
              Warmup.Scripted.getEthereumProvider Warmup.Scripted.secp256k1_sign
              Warmup.Scripted.failing_twice Warmup.Scripted.failing_twice
              [inl (mkError "signer still not initialised")]
              (mkError "signer not initialised") eq_refl eq_refl)
    as (_ & Hcalls & Hfail & _).
  split; [exact (Hfail (mkError "signer still not initialised") eq_refl)|].
  exact Hcalls.
Defined.

(** C9, as the specification words it, fails: the signer fails twice in a
    row, and the effect that called [warmup()] returns [undefined] all the
    same.  The promise that rejects with the second failure is held by
    nobody: the caller is not told, and nothing is recorded. *)
Lemma failed_warmup_reaches_no_caller :
  Warmup.returned
    (Warmup.Scripted.useSigningWarmup (Some Warmup.Scripted.failing_twice))
  = inr tt
  /\ Warmup.returned
       (Warmup.Scripted.useSigningWarmup (Some Warmup.Scripted.failing_twice))
     <> inl (mkError "signer still not initialised")
  /\ exists attempt,
      Warmup.floating
        (Warmup.Scripted.useSigningWarmup (Some Warmup.Scripted.failing_twice))
      = Some attempt
      /\ Warmup.outcome attempt = inl (mkError "signer still not initialised").
Proof.
  split; [reflexivity|]. split; [discriminate|].
  eexists. split; reflexivity.
Qed.

(** C8, as the code has it.  The guard of the warmup effect looks at
    [isWarmedUp.current] only, which is set when a warmup has run to its
    end.  So [n] runs of the effect that start before any warmup has
    finished issue [n] signing requests, one each; in any schedule the
    requests issued are at least the runs that have signed and at most the
    runs that got past the guard; and a run that starts once the flag is set
    is skipped and issues none. *)
Theorem concurrent_warmups_each_sign :
  forall n : nat,
    (exists h, Warmup.run Warmup.mounted (Warmup.concurrently n) = Some h
               /\ Warmup.signRequests h = n
               /\ Warmup.runs h = replicate n Warmup.Ready)
    /\ (forall acts h,
          Warmup.run Warmup.mounted acts = Some h ->
          (Warmup.count Warmup.hasSigned (Warmup.runs h) <= Warmup.signRequests h)%nat
          /\ (Warmup.signRequests h <= Warmup.count Warmup.maySign (Warmup.runs h))%nat
          /\ (Warmup.runs h = replicate n Warmup.Ready -> Warmup.signRequests h = n))
    /\ (forall h hasWallet,
          Warmup.isWarmedUp h = true ->
          Warmup.exec h (Warmup.Effect hasWallet)
          = Some {| Warmup.isWarmedUp := true;
                    Warmup.signRequests := Warmup.signRequests h;
                    Warmup.runs := Warmup.runs h ++ [Warmup.Skipped] |}).
Proof.
  intros n. split; [|split].
  - eexists. split; [apply run_concurrently|]. split; reflexivity.
  - intros acts h Hrun.
    assert (Hacc : Warmup.accounted h).
    { eapply run_accounted; [exact Hrun|]. split; cbn; lia. }
    destruct Hacc as [Hlo Hhi]. split; [exact Hlo|]. split; [exact Hhi|].
    intros Hall. rewrite Hall in Hlo, Hhi. rewrite count_all_ready in Hlo.
    pose proof (count_le_length Warmup.maySign (replicate n Warmup.Ready)) as Hlen.
    rewrite length_replicate in Hlen. lia.
  - intros h hasWallet Hwarm. cbn [Warmup.exec]. rewrite Hwarm, orb_true_r.
    reflexivity.
Qed.

(** C8, as the specification words it, fails: two runs of the effect that
    start before either has finished issue two signing requests, not one. *)
Lemma two_concurrent_warmups_sign_twice :
  exists h,
    Warmup.run Warmup.mounted (Warmup.concurrently 2) = Some h
    /\ Warmup.runs h = [Warmup.Ready; Warmup.Ready]
    /\ Warmup.signRequests h = 2%nat
    /\ Warmup.signRequests h <> 1%nat.
Proof.
  eexists. split; [vm_compute; reflexivity|].
  split; [reflexivity|]. split; [reflexivity | discriminate].
Qed.

(** * More properties of the nonce manager *)

Section NonceLockFacts.

Import NonceManager NonceLock.

Lemma owned_push w c a p : owned w a p -> owned (push_call c w) a p.
Proof.
  intros [j Hj]. exists j. cbn [push_call calls]. by apply lookup_app_l_Some.
Qed.

Lemma consistent_idle m : consistent (idle m).
Proof.
  split.
  - intros a p H. cbn in H. by rewrite lookup_empty in H.
  - intros i a p H. cbn in H. by rewrite lookup_nil in H.
Qed.

(** A call entering the query phase: fresh promise, lock entry overwritten. *)
Lemma consistent_enter w i b c (w' : World) :
  consistent w ->
  (forall a p, c <> AwaitLock a p) ->
  calls w' !! i = Some (AwaitCount b (fresh w)) ->
  (forall j x, j <> i -> calls w !! j = Some x -> calls w' !! j = Some x) ->
  (forall j x, j <> i -> calls w' !! j = Some x -> calls w !! j = Some x) ->
  (forall a p, calls w !! i <> Some (AwaitCount a p)) ->
  locks (manager w') = <[b := fresh w]> (locks (manager w)) ->
  settled w' = settled w ->
  consistent w'.
Proof.
  intros [Hlocks Hwaits] _ Hi Hkeep Hold Hnot Hl Hs. split.
  - intros a p Ha. rewrite Hl in Ha.
    destruct (decide (b = a)) as [-> | Hne].
    + rewrite lookup_insert_eq in Ha. inversion Ha; subst. by exists i.
    + rewrite lookup_insert_ne in Ha by done.
      destruct (Hlocks _ _ Ha) as [j Hj]. exists j. apply Hkeep; [|done].
      intros ->. by eapply Hnot.
  - intros k a p Hk.
    assert (k <> i) as Hki by (intros ->; rewrite Hi in Hk; discriminate).
    destruct (Hwaits k a p (Hold _ _ Hki Hk)) as [Hin | [j Hj]].
    + left. by rewrite Hs.
    + right. exists j. apply Hkeep; [|done]. intros ->. by eapply Hnot.
Qed.

(** A call leaving the query phase: its promise resolved, the lock entry
    of its address deleted. *)
Lemma consistent_leave w i b own c (w' : World) :
  consistent w ->
  calls w !! i = Some (AwaitCount b own) ->
  finished c = true ->
  calls w' = <[i := c]> (calls w) ->
  locks (manager w') = delete b (locks (manager w)) ->
  settled w' = {[own]} ∪ settled w ->
  consistent w'.
Proof.
  intros [Hlocks Hwaits] Hi Hc Hcalls Hl Hs. split.
  - intros a p Ha. rewrite Hl in Ha.
    destruct (decide (b = a)) as [-> | Hne].
    + by rewrite lookup_delete_eq in Ha.
    + rewrite lookup_delete_ne in Ha by done.
      destruct (Hlocks _ _ Ha) as [j Hj]. exists j. rewrite Hcalls.
      rewrite list_lookup_insert_ne; [done|].
      intros ->. rewrite Hi in Hj. congruence.
  - intros k a p Hk. rewrite Hcalls in Hk.
    assert (k <> i) as Hki.
    { intros ->. rewrite list_lookup_insert_eq in Hk by (by eapply lookup_lt_Some).
      inversion Hk; subst. discriminate Hc. }
    rewrite list_lookup_insert_ne in Hk by done.
    destruct (Hwaits k a p Hk) as [Hin | [j Hj]].
    + left. rewrite Hs. apply elem_of_union. by right.
    + destruct (decide (j = i)) as [-> | Hji].
      * rewrite Hi in Hj. inversion Hj; subst. left. rewrite Hs.
        apply elem_of_union. left. by apply elem_of_singleton.
      * right. exists j. rewrite Hcalls. by rewrite list_lookup_insert_ne.
Qed.

Lemma exec_consistent w act w' out :
  exec w act = Some (w', out) -> consistent w -> consistent w'.
Proof.
  intros Hexec Hcons. destruct act as [b | i | i r | b]; cbn [exec] in Hexec.
  - destruct (locks (manager w) !! b) as [p|] eqn:Hb;
      inversion Hexec; subst; clear Hexec.
    + destruct Hcons as [Hlocks Hwaits]. split.
      * intros a q Ha. apply owned_push. by apply Hlocks.
      * intros k a q Hk. cbn [push_call calls] in Hk.
        apply lookup_app_Some in Hk as [Hk | [_ Hk]].
        -- destruct (Hwaits _ _ _ Hk); [by left | right; by apply owned_push].
        -- destruct (k - length (calls w))%nat as [|[|?]]; cbn in Hk;
             try discriminate Hk.
           inversion Hk; subst. right. apply owned_push. by apply Hlocks.
    + eapply (consistent_enter w (length (calls w)) b (AwaitCount b (fresh w)));
        [exact Hcons | discriminate | | | | | reflexivity | reflexivity].
      * cbn [push_call acquire calls]. by apply list_lookup_middle.
      * intros j x _ Hj. cbn [push_call acquire calls]. by apply lookup_app_l_Some.
      * intros j x Hne Hj. cbn [push_call acquire calls] in Hj.
        apply lookup_app_Some in Hj as [Hj | [Hge Hj]]; [done|].
        destruct (j - length (calls w))%nat as [|[|?]] eqn:Hd; cbn in Hj;
          try discriminate Hj. lia.
      * intros a p. rewrite lookup_ge_None_2; [discriminate | lia].
  - destruct (calls w !! i) as [[b p | | | ]|] eqn:Hi; try discriminate.
    destruct (decide (p ∈ settled w)); inversion Hexec; subst; clear Hexec.
    eapply (consistent_enter w i b (AwaitCount b (fresh w)));
      [exact Hcons | discriminate | | | | | reflexivity | reflexivity].
    + cbn [set_call acquire calls]. apply list_lookup_insert_eq.
      by eapply lookup_lt_Some.
    + intros j x Hne Hj. cbn [set_call acquire calls].
      by rewrite list_lookup_insert_ne.
    + intros j x Hne Hj. cbn [set_call acquire calls] in Hj.
      by rewrite list_lookup_insert_ne in Hj.
    + intros a q. rewrite Hi. discriminate.
  - destruct (calls w !! i) as [[ | b own | | ]|] eqn:Hi; try discriminate.
    destruct r as [e | n]; inversion Hexec; subst; clear Hexec.
    + by eapply (consistent_leave w i b own (Thrown b e)).
    + by eapply (consistent_leave w i b own
                   (Returned b (Z.max n (Number.add (lastUsed (nonces (manager w)) b) 1)))).
  - inversion Hexec; subst. exact Hcons.
Qed.

Lemma run_consistent acts : forall w w' out,
  run w acts = Some (w', out) -> consistent w -> consistent w'.
Proof.
  induction acts as [|act acts IH]; intros w w' out Hrun Hcons; simpl in Hrun.
  - by inversion Hrun; subst.
  - destruct (exec w act) as [[w1 out1]|] eqn:Hexec; [|discriminate].
    destruct (run w1 acts) as [[w2 out2]|] eqn:Hrest; [|discriminate].
    inversion Hrun; subst. eapply IH; [exact Hrest|]. by eapply exec_consistent.
Qed.

(** A call waiting for the network finishes with the network's answer. *)
Lemma reply_finishes w i b own r :
  calls w !! i = Some (AwaitCount b own) ->
  exists w' out c,
    exec w (Reply i r) = Some (w', out)
    /\ calls w' !! i = Some c /\ finished c = true
    /\ own ∈ settled w'
    /\ (forall j, j <> i -> calls w' !! j = calls w !! j).
Proof.
  intros Hi. cbn [exec]. rewrite Hi. destruct r as [e | n].
  - do 3 eexists. split; [reflexivity|]. cbn [set_call release calls settled].
    split; [apply list_lookup_insert_eq; by eapply lookup_lt_Some|].
    split; [reflexivity|]. split; [set_solver|].
    intros j Hj. by rewrite list_lookup_insert_ne.
  - do 3 eexists. split; [reflexivity|].
    cbn [set_call release set_nonces calls settled].
    split; [apply list_lookup_insert_eq; by eapply lookup_lt_Some|].
    split; [reflexivity|]. split; [set_solver|].
    intros j Hj. by rewrite list_lookup_insert_ne.
Qed.

(** A call waiting for a resolved promise goes on to the network. *)
Lemma resume_enters w i b p :
  calls w !! i = Some (AwaitLock b p) ->
  p ∈ settled w ->
  exists w',
    exec w (Resume i) = Some (w', [])
    /\ calls w' !! i = Some (AwaitCount b (fresh w)).
Proof.
  intros Hi Hp. cbn [exec]. rewrite Hi, decide_True by done.
  eexists. split; [reflexivity|]. cbn [set_call acquire calls].
  apply list_lookup_insert_eq. by eapply lookup_lt_Some.
Qed.

Lemma run_step w act w1 out1 rest w2 out2 :
  exec w act = Some (w1, out1) ->
  run w1 rest = Some (w2, out2) ->
  run w (act :: rest) = Some (w2, out1 ++ out2).
Proof. intros H1 H2. cbn [run]. by rewrite H1, H2. Qed.

(** X1. No reservation is ever stuck behind the lock.  In any world the
    manager can get into from rest, a call that has not settled yet settles
    after at most three more segments, none of which needs a new caller:
    the network answers the call it waits for, its continuation runs, and
    the network answers the call itself, whatever those answers are. *)
Theorem pending_call_can_always_finish :
  forall (m : gmap string Z) (acts : list Action) (w : World)
         (out : list Reservation) (i : nat) (c : Call) (r1 r2 : JsError + Z),
    run (idle m) acts = Some (w, out) ->
    calls w !! i = Some c ->
    finished c = false ->
    exists more w' out' c',
      (length more <= 3)%nat
      /\ Forall (pending_only r1 r2) more
      /\ run w more = Some (w', out')
      /\ calls w' !! i = Some c'
      /\ finished c' = true.
Proof.
  intros m acts w out i c r1 r2 Hrun Hi Hc.
  pose proof (run_consistent _ _ _ _ Hrun (consistent_idle m)) as [_ Hwaits].
  destruct c as [b p | b own | |]; try discriminate Hc.
  - assert (Hgo : forall w1, calls w1 !! i = Some (AwaitLock b p) -> p ∈ settled w1 ->
              exists w' out' c',
                run w1 [Resume i; Reply i r2] = Some (w', out')
                /\ calls w' !! i = Some c' /\ finished c' = true).
    { intros w1 Hi1 Hp.
      destruct (resume_enters _ _ _ _ Hi1 Hp) as (w2 & Hex2 & Hi2).
      destruct (reply_finishes _ _ _ _ r2 Hi2) as (w3 & out3 & c3 & Hex3 & Hi3 & Hc3 & _).
      exists w3, ([] ++ out3 ++ []), c3. split; [|done].
      eapply run_step; [exact Hex2|]. eapply run_step; [exact Hex3|reflexivity]. }
    destruct (Hwaits _ _ _ Hi) as [Hp | [j Hj]].
    + destruct (Hgo w Hi Hp) as (w' & out' & c' & Hrun' & Hi' & Hc').
      exists [Resume i; Reply i r2], w', out', c'.
      split; [simpl; lia|]. split; [|done].
      constructor; [exact I|]. constructor; [by right | constructor].
    + destruct (reply_finishes _ _ _ _ r1 Hj) as (w1 & out1 & c1 & Hex1 & _ & _ & Hp1 & Hsame).
      assert (Hij : i <> j) by (intros ->; rewrite Hj in Hi; discriminate).
      assert (Hi1 : calls w1 !! i = Some (AwaitLock b p)) by (by rewrite Hsame).
      destruct (Hgo w1 Hi1 Hp1) as (w' & out' & c' & Hrun' & Hi' & Hc').
      exists [Reply j r1; Resume i; Reply i r2], w', (out1 ++ out'), c'.
      split; [simpl; lia|]. split; [|split; [|done]].
      * constructor; [by left|]. constructor; [exact I|].
        constructor; [by right | constructor].
      * eapply run_step; [exact Hex1 | exact Hrun'].
  - destruct (reply_finishes _ _ _ _ r2 Hi) as (w1 & out1 & c1 & Hex1 & Hi1 & Hc1 & _).
    exists [Reply i r2], w1, (out1 ++ []), c1.
    split; [simpl; lia|].
    split; [constructor; [by right | constructor]|]. split; [|done].
    eapply run_step; [exact Hex1 | reflexivity].
Qed.

(** The third of three simultaneous callers, still behind the first one's
    lock: it can be brought to its end. *)
Lemma third_caller_can_finish :
  exists w out,
    run (idle ∅) [Invoke "0xA"; Invoke "0xA"; Invoke "0xA"] = Some (w, out)
    /\ calls w !! 2%nat = Some (AwaitLock "0xA" 0)
    /\ exists more w' out' c',
        (length more <= 3)%nat
        /\ run w more = Some (w', out')
        /\ calls w' !! 2%nat = Some c'
        /\ finished c' = true.
Proof.
  assert (Hrun : run (idle ∅) [Invoke "0xA"; Invoke "0xA"; Invoke "0xA"]
                 = Some ({| manager := {| nonces := ∅; locks := {["0xA" := 0%nat]} |};
                            settled := ∅; fresh := 1%nat;
                            calls := [AwaitCount "0xA" 0; AwaitLock "0xA" 0;
                                      AwaitLock "0xA" 0] |}, []))
    by (vm_compute; reflexivity).
  eexists _, _. split; [exact Hrun|]. split; [reflexivity|].
  destruct (pending_call_can_always_finish
              ∅ _ _ _ 2 (AwaitLock "0xA" 0) (inr 0) (inr 0) Hrun eq_refl eq_refl)
    as (more & w' & out' & c' & Hlen & _ & Hmore & Hc' & Hfin).
  exists more, w', out', c'. auto.
Defined.

(** X2. The lock does not keep two waiters apart.  Two calls suspended on
    the same promise both go on once it is resolved: each takes the lock in
    turn, the second overwriting the entry of the first, and both are then
    waiting for the network at the same time. *)
Theorem waiters_enter_together :
  forall (w : World) (i j : nat) (a : string) (p : nat),
    i <> j ->
    calls w !! i = Some (AwaitLock a p) ->
    calls w !! j = Some (AwaitLock a p) ->
    p ∈ settled w ->
    exists w',
      run w [Resume i; Resume j] = Some (w', [])
      /\ calls w' !! i = Some (AwaitCount a (fresh w))
      /\ calls w' !! j = Some (AwaitCount a (S (fresh w)))
      /\ locks (manager w') !! a = Some (S (fresh w)).
Proof.
  intros w i j a p Hij Hi Hj Hp. cbn [run exec]. rewrite Hi, decide_True by done.
  cbn [acquire set_call calls settled fresh manager locks nonces].
  rewrite list_lookup_insert_ne by done. rewrite Hj, decide_True by done.
  eexists. split; [reflexivity|]. cbn [set_call calls manager locks].
  split; [|split].
  - rewrite list_lookup_insert_ne by done. apply list_lookup_insert_eq.
    by eapply lookup_lt_Some.
  - apply list_lookup_insert_eq. rewrite length_insert. by eapply lookup_lt_Some.
  - apply lookup_insert_eq.
Qed.

(** After [queued], the second and the third caller are both let in. *)
Lemma queued_callers_enter_together :
  run (idle ∅) queued = Some (released, [mkReservation 0 "0xA" 3 3])
  /\ exists w',
      run released [Resume 1; Resume 2] = Some (w', [])
      /\ calls w' !! 1%nat = Some (AwaitCount "0xA" 1)
      /\ calls w' !! 2%nat = Some (AwaitCount "0xA" 2)
      /\ locks (manager w') !! "0xA" = Some 2%nat.
Proof.
  split; [vm_compute; reflexivity|].
  assert (Hp : 0%nat ∈ settled released)
    by (unfold released; cbn [settled]; set_solver).
  exact (waiters_enter_together released 1 2 "0xA" 0
           ltac:(discriminate) eq_refl eq_refl Hp).
Defined.

(** X3. [reset] forgets the sender and nothing else.  It leaves the locks,
    the calls and every other sender alone; the next uncontended call for
    the sender returns the larger of the reported count and 0, whatever was
    handed out before. *)
Theorem reset_forgets_the_sender :
  forall (w : World) (a : string) (n : Z),
    locks (manager w) !! a = None ->
    exists w1 w2,
      exec w (Reset a) = Some (w1, [])
      /\ calls w1 = calls w
      /\ locks (manager w1) = locks (manager w)
      /\ (forall b, b <> a -> nextOf w1 b = nextOf w b)
      /\ nextOf w1 a = 0
      /\ getNextNonce w1 a (inr n)
         = Some (w2, [mkReservation (length (calls w)) a n (Z.max n 0)]).
Proof.
  intros w a n Hfree. cbn [exec].
  set (w1 := {| manager := reset a (manager w); settled := settled w;
                fresh := fresh w; calls := calls w |}).
  assert (Hnext : nextOf w1 a = 0).
  { unfold nextOf, localNext, lastUsed. cbn. by rewrite lookup_delete_eq. }
  destruct (getNextNonce_uncontended w1 a n Hfree) as (w2 & Hrun & _).
  rewrite Hnext in Hrun.
  exists w1, w2. split; [reflexivity|]. split; [reflexivity|].
  split; [reflexivity|]. split; [|split; [exact Hnext | exact Hrun]].
  intros b Hb. unfold nextOf. cbn. by apply localNext_delete_ne.
Qed.

(** A sender that was handed 7 is handed 7 again after a reset, when the
    network still reports 7. *)
Lemma reset_hands_out_seven_again :
  locks (manager (idle {["0xA" := 7]})) !! "0xA" = None
  /\ exists w1 w2,
      exec (idle {["0xA" := 7]}) (Reset "0xA") = Some (w1, [])
      /\ getNextNonce w1 "0xA" (inr 7) = Some (w2, [mkReservation 0 "0xA" 7 7]).
Proof.
  split; [reflexivity|].
  destruct (reset_forgets_the_sender (idle {["0xA" := 7]}) "0xA" 7 eq_refl)
    as (w1 & w2 & Hreset & _ & _ & _ & _ & Hnext).
  exists w1, w2. split; [exact Hreset | exact Hnext].
Defined.

Lemma chained_determined rs1 : forall rs2 next,
  chained next rs1 ->
  chained next rs2 ->
  map observed rs1 = map observed rs2 ->
  map assigned rs1 = map assigned rs2.
Proof.
  induction rs1 as [|r1 rs1 IH]; intros [|r2 rs2] next H1 H2 Hobs;
    simpl in *; try discriminate; [reflexivity|].
  destruct H1 as [Ha1 H1], H2 as [Ha2 H2]. inversion Hobs as [[Ho Hrest]].
  assert (Heq : assigned r1 = assigned r2) by congruence.
  rewrite Heq. f_equal. rewrite Heq in H1. by eapply IH.
Qed.

(** X4. Senders do not interfere.  What one sender is handed depends only
    on its own starting value and on the pending counts reported to its own
    calls: two runs that agree on these hand the sender the same values,
    whatever other senders do in either run and however the calls are
    interleaved. *)
Theorem reservations_depend_on_own_sender_only :
  forall (w1 w1' w2 w2' : World) (acts1 acts2 : list Action)
         (out1 out2 : list Reservation) (a : string),
    run w1 acts1 = Some (w1', out1) ->
    run w2 acts2 = Some (w2', out2) ->
    no_reset a acts1 ->
    no_reset a acts2 ->
    nextOf w1 a = nextOf w2 a ->
    map observed (for_sender a out1) = map observed (for_sender a out2) ->
    map assigned (for_sender a out1) = map assigned (for_sender a out2)
    /\ nextOf w1' a = nextOf w2' a.
Proof.
  intros w1 w1' w2 w2' acts1 acts2 out1 out2 a Hrun1 Hrun2 Hnr1 Hnr2 Hnext Hobs.
  destruct (run_chained _ _ _ _ a Hrun1 Hnr1) as [Hc1 Hn1].
  destruct (run_chained _ _ _ _ a Hrun2 Hnr2) as [Hc2 Hn2].
  rewrite <- Hnext in Hc2, Hn2.
  pose proof (chained_determined _ _ _ Hc1 Hc2 Hobs) as Hsame.
  split; [exact Hsame|].
  rewrite Hn1, Hn2. clear - Hsame Hc1 Hc2.
  revert Hsame Hc1 Hc2. generalize (nextOf w1 a).
  generalize (for_sender a out1) (for_sender a out2).
  induction l as [|r1 l IH]; intros [|r2 l'] next Hsame Hc1 Hc2;
    simpl in *; try discriminate; [reflexivity|].
  inversion Hsame as [[Ha Hrest]]. destruct Hc1 as [_ Hc1], Hc2 as [_ Hc2].
  rewrite Ha in Hc1 |- *. by eapply IH.
Qed.

(** Sender 0xA is handed 5 for a reported count of 5, alone or while
    sender 0xB is being served as well. *)
Lemma sender_alone_or_in_company :
  exists w1' w2' out1 out2,
    run (idle ∅) [Invoke "0xA"; Reply 0 (inr 5)] = Some (w1', out1)
    /\ run (idle ∅) [Invoke "0xB"; Invoke "0xA"; Reply 0 (inr 9); Reply 1 (inr 5)]
       = Some (w2', out2)
    /\ map assigned (for_sender "0xA" out1) = [5]
    /\ map assigned (for_sender "0xA" out2) = [5]
    /\ nextOf w1' "0xA" = nextOf w2' "0xA".
Proof.
  assert (H1 : run (idle ∅) [Invoke "0xA"; Reply 0 (inr 5)]
               = Some ({| manager := {| nonces := {["0xA" := 5]}; locks := ∅ |};
                          settled := {[0%nat]}; fresh := 1%nat;
                          calls := [Returned "0xA" 5] |},
                       [mkReservation 0 "0xA" 5 5])) by (vm_compute; reflexivity).
  assert (H2 : run (idle ∅) [Invoke "0xB"; Invoke "0xA"; Reply 0 (inr 9); Reply 1 (inr 5)]
               = Some ({| manager := {| nonces := {["0xA" := 5; "0xB" := 9]};
                                        locks := ∅ |};
                          settled := {[0%nat; 1%nat]}; fresh := 2%nat;
                          calls := [Returned "0xB" 9; Returned "0xA" 5] |},
                       [mkReservation 0 "0xB" 9 9; mkReservation 1 "0xA" 5 5]))
    by (vm_compute; reflexivity).
  assert (Hn1 : no_reset "0xA" [Invoke "0xA"; Reply 0 (inr 5)])
    by (repeat constructor; discriminate).
  assert (Hn2 : no_reset "0xA" [Invoke "0xB"; Invoke "0xA"; Reply 0 (inr 9);
                                Reply 1 (inr 5)])
    by (repeat constructor; discriminate).
  destruct (reservations_depend_on_own_sender_only
              _ _ _ _ _ _ _ _ "0xA" H1 H2 Hn1 Hn2 eq_refl eq_refl) as [Hsame Hnext].
  eexists _, _, _, _. split; [exact H1|]. split; [exact H2|].
  split; [reflexivity|]. split; [reflexivity | exact Hnext].
Defined.

End NonceLockFacts.

Section HookFacts.

(** X5. The per-chain hook keeps the chains apart: a reservation on one
    chain and a reservation on another give the same two values and leave
    the same record behind in either order, whether the queries succeed or
    fail. *)
Theorem chains_do_not_interfere :
  forall (lastNonceRef : gmap Z Z) (c1 c2 : Z) (r1 r2 : JsError + Z),
    c1 <> c2 ->
    fst (Hooks.getNextNonceByChain
           (snd (Hooks.getNextNonceByChain lastNonceRef c2 r2)) c1 r1)
    = fst (Hooks.getNextNonceByChain lastNonceRef c1 r1)
    /\ fst (Hooks.getNextNonceByChain
             (snd (Hooks.getNextNonceByChain lastNonceRef c1 r1)) c2 r2)
       = fst (Hooks.getNextNonceByChain lastNonceRef c2 r2)
    /\ snd (Hooks.getNextNonceByChain
             (snd (Hooks.getNextNonceByChain lastNonceRef c1 r1)) c2 r2)
       = snd (Hooks.getNextNonceByChain
                (snd (Hooks.getNextNonceByChain lastNonceRef c2 r2)) c1 r1).
Proof.
  intros ref c1 c2 r1 r2 Hne. unfold Hooks.getNextNonceByChain.
  destruct r1 as [e1 | n1], r2 as [e2 | n2]; cbn [fst snd];
    rewrite ?lookup_insert_ne by congruence; try by auto.
  split; [reflexivity|]. split; [reflexivity|].
  by apply insert_insert_ne.
Qed.

(** Mainnet (4326) and testnet (6343) reservations commute. *)
Lemma mainnet_and_testnet_do_not_interfere :
  4326 <> 6343
  /\ fst (Hooks.getNextNonceByChain
            (snd (Hooks.getNextNonceByChain {[4326 := 7]} 6343 (inr 2))) 4326 (inr 3))
     = inr 8.
Proof.
  assert (Hne : 4326 <> 6343) by discriminate.
  split; [exact Hne|].
  destruct (chains_do_not_interfere {[4326 := 7]} 4326 6343 (inr 3) (inr 2) Hne)
    as [H _].
  rewrite H. reflexivity.
Defined.

End HookFacts.

(** * More properties of submission with retry *)

Section SubmissionMoreFacts.

Import Submission SubmissionMore.

Context {Body Receipt State : Type}.
Variable getLatestBlockhash : State -> (JsError + string) * State.
Variable sendTransaction : Transaction Body -> State -> (JsError + Receipt) * State.

Lemma attempts_mutation (n : nat) : forall (tx : Transaction Body) (c : State),
  let r := Submission.attempts getLatestBlockhash sendTransaction n tx c in
  Forall (fun t => exists h, blockhash t = Some h) (submissions (transcript r))
  /\ tx_after r = default tx (last (submissions (transcript r)))
  /\ (iterations (transcript r)
      = length (submissions (transcript r)) + unanswered (transcript r))%nat.
Proof.
  induction n as [|n IH]; intros tx c; cbv zeta.
  - cbn. split; [constructor|]. split; reflexivity.
  - cbn [Submission.attempts].
    destruct (getLatestBlockhash c) as [[e | h] c1].
    + destruct (retryable e).
      * destruct (IH tx c1) as (Hall & Hafter & Hcount).
        cbn [after transcript tx_after submissions iterations unanswered].
        split; [exact Hall|]. split; [exact Hafter | lia].
      * cbn. split; [constructor|]. split; reflexivity.
    + destruct (sendTransaction (with_blockhash h tx) c1) as [[e | receipt] c2].
      * destruct (retryable e).
        -- destruct (IH (with_blockhash h tx) c2) as (Hall & Hafter & Hcount).
           cbn [after transcript tx_after submissions iterations unanswered length].
           split; [constructor; [by exists h | exact Hall]|].
           split; [|lia]. rewrite Hafter, last_cons.
           by destruct (last _).
        -- cbn. split; [repeat constructor; by exists h|]. split; reflexivity.
      * cbn. split; [repeat constructor; by exists h|]. split; reflexivity.
Qed.

(** X6. [submitWithRetry] never submits a transaction without a block
    reference, even when the caller's transaction had none; and it works on
    the caller's object: when the call is over, successfully or not, that
    object is the last transaction submitted, or untouched if none was. *)
Theorem every_submission_carries_a_blockhash :
  forall (tx : Transaction Body) (maxRetries : option Z) (c : State),
    let r := submitWithRetry getLatestBlockhash sendTransaction tx maxRetries c in
    Forall (fun t => exists h, blockhash t = Some h) (submissions (transcript r))
    /\ tx_after r = default tx (last (submissions (transcript r))).
Proof.
  intros tx maxRetries c r. subst r. unfold submitWithRetry.
  destruct (attempts_mutation (Z.to_nat (default 3 maxRetries)) tx c)
    as (Hall & Hafter & _).
  split; [exact Hall | exact Hafter].
Qed.

(** X7. With a retry bound of zero or less the client is never contacted:
    nothing is requested, nothing is submitted, the transaction is left as
    it was, and the call throws 'Transaction expired'. *)
Theorem no_attempt_without_budget :
  forall (tx : Transaction Body) (maxRetries : Z) (c : State),
    maxRetries <= 0 ->
    submitWithRetry getLatestBlockhash sendTransaction tx (Some maxRetries) c
    = {| outcome := inl expired; transcript := [];
         tx_after := tx; client_after := c |}.
Proof.
  intros tx maxRetries c Hle. unfold submitWithRetry. cbn [default].
  replace (Z.to_nat (id maxRetries)) with 0%nat by (unfold id; lia).
  reflexivity.
Qed.

(** X8. Every iteration of the loop is spent on exactly one thing: a
    blockhash request that failed, or one submission.  So blockhash
    requests that fail use up the retry bound like rejected submissions
    do. *)
Theorem iterations_are_accounted :
  forall (tx : Transaction Body) (maxRetries : option Z) (c : State),
    let r := submitWithRetry getLatestBlockhash sendTransaction tx maxRetries c in
    (iterations (transcript r)
     = length (submissions (transcript r)) + unanswered (transcript r))%nat
    /\ (length (submissions (transcript r)) + unanswered (transcript r)
        <= Z.to_nat (default 3%Z maxRetries))%nat.
Proof.
  intros tx maxRetries c r. subst r. unfold submitWithRetry.
  destruct (attempts_mutation (Z.to_nat (default 3 maxRetries)) tx c)
    as (_ & _ & Hcount).
  destruct (attempts_spec getLatestBlockhash sendTransaction
              (Z.to_nat (default 3 maxRetries)) tx c) as (Hit & _).
  split; [exact Hcount | lia].
Qed.

End SubmissionMoreFacts.

(** A bound of zero: the scripted client keeps all its answers. *)
Lemma zero_retries_contact_nobody :
  0 <= 0
  /\ Submission.Scripted.submitWithRetry
       Submission.Scripted.transfer (Some 0) Submission.Scripted.stale_blockhash
     = {| Submission.outcome := inl Submission.expired;
          Submission.transcript := [];
          Submission.tx_after := Submission.Scripted.transfer;
          Submission.client_after := Submission.Scripted.stale_blockhash |}.
Proof.
  assert (H : 0 <= 0) by lia.
  split; [exact H|].
  exact (no_attempt_without_budget
           Submission.Scripted.getLatestBlockhash Submission.Scripted.sendTransaction
           Submission.Scripted.transfer 0 Submission.Scripted.stale_blockhash H).
Defined.

(** One unanswered blockhash request and one submission: two of the three
    iterations are used. *)
Example flaky_blockhash_uses_the_budget :
  let r := Submission.Scripted.submitWithRetry
             Submission.Scripted.transfer None SubmissionMore.flaky_blockhash in
  Submission.outcome r = inr "receipt"
  /\ Submission.iterations (Submission.transcript r) = 2%nat
  /\ SubmissionMore.unanswered (Submission.transcript r) = 1%nat.
Proof. repeat split. Qed.

(** * More properties of signature parsing *)

Section SignatureMoreFacts.

Import Signature.
Local Open Scope string_scope.

Lemma substring_short (s : string) : forall n m,
  (String.length s <= n)%nat -> substring n m s = "".
Proof.
  induction s as [|c s IH]; intros n m Hlen.
  - destruct n, m; reflexivity.
  - destruct n as [|n]; simpl in Hlen; [lia|]. simpl. apply IH. lia.
Qed.

Lemma substring_within (s t : string) : forall n m,
  (n + m <= String.length s)%nat -> substring n m (s ++ t) = substring n m s.
Proof.
  induction s as [|c s IH]; intros n m Hlen; simpl in Hlen.
  - assert (n = 0%nat) by lia. assert (m = 0%nat) by lia. subst.
    destruct t; reflexivity.
  - destruct n as [|n].
    + destruct m as [|m]; [reflexivity|]. simpl. f_equal. apply (IH 0%nat). lia.
    + simpl. apply IH. lia.
Qed.

(** The recovery characters of a 65-byte signature spell its last byte. *)
Lemma recovery_slice upper (bs : list Byte.byte) :
  length bs = 65%nat ->
  exists recovery,
    bs !! 64%nat = Some recovery
    /\ slice (toHex upper bs) 130 132 = hexOfByte upper recovery.
Proof.
  intros Hlen. destruct (split_65 bs Hlen) as (recovery & Hlast & Hbs).
  exists recovery. split; [exact Hlast|].
  assert (HR : String.length (hexOfBytes upper (take 32 bs)) = 64%nat).
  { rewrite hexOfBytes_length, length_take. lia. }
  assert (HS : String.length (hexOfBytes upper (take 32 (drop 32 bs))) = 64%nat).
  { rewrite hexOfBytes_length, length_take, length_drop. lia. }
  pose proof (f_equal (hexOfBytes upper) Hbs) as Hhex.
  rewrite !hexOfBytes_app in Hhex.
  destruct (slices_of_signature _ _ (hexOfBytes upper [recovery]) HR HS)
    as (_ & _ & Hv).
  unfold toHex. rewrite Hhex, Hv. reflexivity.
Qed.

(** X9. The two parsers agree.  [parseSignature] throws exactly when
    [parseSignatureEIP1559] returns a [NaN] parity; otherwise both return
    the same [r] and [s], and [v] is 2 * chainId + 35 + yParity. *)
Theorem parsers_agree :
  forall (signature : string) (chainId : Z),
    parseSignature signature chainId
    = match SignatureMore.yParity (SignatureMore.parseSignatureEIP1559 signature) with
      | None => None
      | Some y =>
          Some {| r := SignatureMore.r (SignatureMore.parseSignatureEIP1559 signature);
                  s := SignatureMore.s (SignatureMore.parseSignatureEIP1559 signature);
                  v := (2 * chainId + 35 + y)%Z |}
      end.
Proof.
  intros signature chainId. unfold parseSignature, SignatureMore.parseSignatureEIP1559.
  cbn [SignatureMore.yParity SignatureMore.r SignatureMore.s].
  destruct (parseInt16 (slice signature 130 132)); cbn [option_map]; [|reflexivity].
  do 2 f_equal. lia.
Qed.

(** X10. A signature cut short is not noticed as such.  When the string has
    at most 130 characters, so that the recovery byte is missing,
    [parseSignature] throws (from [BigInt(NaN)]), and
    [parseSignatureEIP1559] returns a [NaN] parity without throwing. *)
Theorem truncated_signature_has_no_parity :
  forall (signature : string) (chainId : Z),
    (String.length signature <= 130)%nat ->
    parseSignature signature chainId = None
    /\ SignatureMore.yParity (SignatureMore.parseSignatureEIP1559 signature) = None.
Proof.
  intros signature chainId Hlen.
  assert (Hv : slice signature 130 132 = "").
  { unfold slice. by apply substring_short. }
  unfold parseSignature, SignatureMore.parseSignatureEIP1559.
  cbn [SignatureMore.yParity]. rewrite Hv. split; reflexivity.
Qed.

(** A signature of 64 bytes only. *)
Lemma signature_without_recovery_byte :
  (String.length (toHex false SignatureMore.body64) <= 130)%nat
  /\ parseSignature (toHex false SignatureMore.body64) 6343 = None
  /\ SignatureMore.yParity
       (SignatureMore.parseSignatureEIP1559 (toHex false SignatureMore.body64))
     = None.
Proof.
  assert (H : (String.length (toHex false SignatureMore.body64) <= 130)%nat)
    by (vm_compute; lia).
  split; [exact H|].
  exact (truncated_signature_has_no_parity _ 6343 H).
Defined.

(** X11. The parity is the last byte, less 27 when that is at least 27, and
    nothing confines it to 0 and 1: it is 0 or 1 exactly when the byte is
    0, 1, 27 or 28. *)
Theorem parity_is_valid_only_for_four_bytes :
  forall (upper : bool) (bs : list Byte.byte),
    length bs = 65%nat ->
    exists recovery : Byte.byte,
      bs !! 64%nat = Some recovery
      /\ SignatureMore.yParity (SignatureMore.parseSignatureEIP1559 (toHex upper bs))
         = Some (normalize (byteValue recovery))
      /\ (SignatureMore.validParity (Some (normalize (byteValue recovery)))
          <-> (byteValue recovery = 0 \/ byteValue recovery = 1
               \/ byteValue recovery = 27 \/ byteValue recovery = 28)%Z).
Proof.
  intros upper bs Hlen.
  destruct (recovery_slice upper bs Hlen) as (recovery & Hlast & Hslice).
  exists recovery. split; [exact Hlast|]. split.
  - unfold SignatureMore.parseSignatureEIP1559. cbn [SignatureMore.yParity].
    by rewrite Hslice, parseInt16_hexOfByte.
  - assert (0 <= byteValue recovery)%Z by (unfold byteValue; lia).
    unfold SignatureMore.validParity, normalize.
    destruct (Z.geb_spec (byteValue recovery) 27); split.
    + intros [Hy | Hy]; inversion Hy; lia.
    + intros [? | [? | [? | ?]]]; [lia | lia | left | right]; f_equal; lia.
    + intros [Hy | Hy]; inversion Hy; lia.
    + intros [? | [? | [? | ?]]]; [left | right | lia | lia]; f_equal; lia.
Qed.

(** The sample signature ends in byte 28: parity 1. *)
Lemma sample_parity :
  length sample = 65%nat
  /\ SignatureMore.yParity (SignatureMore.parseSignatureEIP1559 (toHex false sample))
     = Some 1%Z.
Proof.
  split; [reflexivity|].
  destruct (parity_is_valid_only_for_four_bytes false sample eq_refl)
    as (recovery & Hlast & Hparity & _).
  inversion Hlast; subst recovery. exact Hparity.
Defined.

(** X12. For valid parities, [v] tells chain and parity apart: two parses
    with the same [v] were made for the same chain id and have the same
    parity. *)
Theorem binding_value_determines_chain_and_parity :
  forall (sig1 sig2 : string) (chain1 chain2 : Z) (p1 p2 : Parsed),
    parseSignature sig1 chain1 = Some p1 ->
    parseSignature sig2 chain2 = Some p2 ->
    SignatureMore.validParity
      (SignatureMore.yParity (SignatureMore.parseSignatureEIP1559 sig1)) ->
    SignatureMore.validParity
      (SignatureMore.yParity (SignatureMore.parseSignatureEIP1559 sig2)) ->
    v p1 = v p2 ->
    chain1 = chain2
    /\ SignatureMore.yParity (SignatureMore.parseSignatureEIP1559 sig1)
       = SignatureMore.yParity (SignatureMore.parseSignatureEIP1559 sig2).
Proof.
  intros sig1 sig2 chain1 chain2 p1 p2 H1 H2 V1 V2 Hv.
  rewrite parsers_agree in H1, H2.
  destruct (SignatureMore.yParity (SignatureMore.parseSignatureEIP1559 sig1))
    as [y1|]; [|discriminate].
  destruct (SignatureMore.yParity (SignatureMore.parseSignatureEIP1559 sig2))
    as [y2|]; [|discriminate].
  inversion H1; subst p1. inversion H2; subst p2. cbn [v] in Hv.
  assert (y1 = 0 \/ y1 = 1)%Z by (destruct V1 as [V | V]; inversion V; lia).
  assert (y2 = 0 \/ y2 = 1)%Z by (destruct V2 as [V | V]; inversion V; lia).
  split; [lia | f_equal; lia].
Qed.

(** Recovery bytes 28 and 1 both mean parity 1: on chain 6343 the two
    signatures get the same [v], and the theorem gives the chain back. *)
Lemma binding_value_of_sample :
  exists p1 p2,
    parseSignature (toHex false sample) 6343 = Some p1
    /\ parseSignature (toHex false (SignatureMore.body64 ++ [Byte.x01])%list) 6343
       = Some p2
    /\ v p1 = v p2
    /\ SignatureMore.yParity (SignatureMore.parseSignatureEIP1559 (toHex false sample))
       = SignatureMore.yParity
           (SignatureMore.parseSignatureEIP1559
              (toHex false (SignatureMore.body64 ++ [Byte.x01])%list)).
Proof.
  assert (H1 : parseSignature (toHex false sample) 6343
               = Some {| r := "0x6161616161616161616161616161616161616161616161616161616161616161";
                         s := "0x6262626262626262626262626262626262626262626262626262626262626262";
                         v := 12722%Z |}) by (vm_compute; reflexivity).
  assert (H2 : parseSignature (toHex false (SignatureMore.body64 ++ [Byte.x01])%list) 6343
               = Some {| r := "0x6161616161616161616161616161616161616161616161616161616161616161";
                         s := "0x6262626262626262626262626262626262626262626262626262626262626262";
                         v := 12722%Z |}) by (vm_compute; reflexivity).
  assert (V1 : SignatureMore.validParity
                 (SignatureMore.yParity
                    (SignatureMore.parseSignatureEIP1559 (toHex false sample))))
    by (right; vm_compute; reflexivity).
  assert (V2 : SignatureMore.validParity
                 (SignatureMore.yParity
                    (SignatureMore.parseSignatureEIP1559
                       (toHex false (SignatureMore.body64 ++ [Byte.x01])%list))))
    by (right; vm_compute; reflexivity).
  eexists _, _. split; [exact H1|]. split; [exact H2|]. split; [reflexivity|].
  exact (proj2 (binding_value_determines_chain_and_parity
                  _ _ 6343 6343 _ _ H1 H2 V1 V2 eq_refl)).
Defined.

(** X13. Outside the valid parities [v] is ambiguous: a signature ending in
    byte 29, parsed for some chain, gives exactly the result of the same
    signature ending in byte 27 parsed for the next chain id. *)
Theorem out_of_range_recovery_byte_shifts_the_chain :
  forall (upper : bool) (body : list Byte.byte) (chainId : Z),
    length body = 64%nat ->
    parseSignature (toHex upper (body ++ [Byte.x1d])%list) chainId
    = parseSignature (toHex upper (body ++ [Byte.x1b])%list) (chainId + 1)
    /\ exists p, parseSignature (toHex upper (body ++ [Byte.x1d])%list) chainId = Some p
                 /\ v p = (2 * (chainId + 1) + 35)%Z.
Proof.
  intros upper body chainId Hlen.
  assert (Hslices : forall last : Byte.byte,
             slice (toHex upper (body ++ [last])%list) 2 66
             = hexOfBytes upper (take 32 body)
             /\ slice (toHex upper (body ++ [last])%list) 66 130
                = hexOfBytes upper (drop 32 body)
             /\ slice (toHex upper (body ++ [last])%list) 130 132
                = hexOfByte upper last).
  { intros last.
    assert (HR : String.length (hexOfBytes upper (take 32 body)) = 64%nat).
    { rewrite hexOfBytes_length, length_take. lia. }
    assert (HS : String.length (hexOfBytes upper (drop 32 body)) = 64%nat).
    { rewrite hexOfBytes_length, length_drop. lia. }
    destruct (slices_of_signature _ _ (hexOfBytes upper [last]) HR HS)
      as (Hr & Hs & Hv).
    unfold toHex. rewrite <- (take_drop 32 body) at 1 3 5.
    rewrite <- !app_assoc, !hexOfBytes_app. rewrite Hr, Hs, Hv. by repeat split. }
  destruct (Hslices Byte.x1d) as (Hr1 & Hs1 & Hv1).
  destruct (Hslices Byte.x1b) as (Hr2 & Hs2 & Hv2).
  unfold parseSignature. rewrite Hr1, Hs1, Hv1, Hr2, Hs2, Hv2.
  rewrite !parseInt16_hexOfByte.
  change (normalize (byteValue Byte.x1d)) with 2%Z.
  change (normalize (byteValue Byte.x1b)) with 0%Z.
  split.
  - do 2 f_equal. lia.
  - eexists. split; [reflexivity|]. cbn [v]. lia.
Qed.

Lemma testnet_signature_reads_as_next_chain :
  length SignatureMore.body64 = 64%nat
  /\ parseSignature (toHex false (SignatureMore.body64 ++ [Byte.x1d])%list) 6343
     = parseSignature (toHex false (SignatureMore.body64 ++ [Byte.x1b])%list) 6344.
Proof.
  split; [reflexivity|].
  exact (proj1 (out_of_range_recovery_byte_shifts_the_chain
                  false SignatureMore.body64 6343 eq_refl)).
Defined.

(** X14. [parseSignature] checks neither the prefix nor the length: the
    first two characters are dropped whatever they are, and everything
    after the 132nd character is ignored. *)
Theorem prefix_and_tail_are_ignored :
  forall (c1 c2 : ascii) (rest extra : string) (chainId : Z),
    (130 <= String.length rest)%nat ->
    parseSignature (String c1 (String c2 (rest ++ extra))) chainId
    = parseSignature ("0x" ++ rest) chainId.
Proof.
  intros c1 c2 rest extra chainId Hlen.
  unfold parseSignature, slice.
  change (substring 2 (66 - 2) (String c1 (String c2 (rest ++ extra))))
    with (substring 0 64 (rest ++ extra)).
  change (substring 66 (130 - 66) (String c1 (String c2 (rest ++ extra))))
    with (substring 64 64 (rest ++ extra)).
  change (substring 130 (132 - 130) (String c1 (String c2 (rest ++ extra))))
    with (substring 128 2 (rest ++ extra)).
  change (substring 2 (66 - 2) ("0x" ++ rest)) with (substring 0 64 rest).
  change (substring 66 (130 - 66) ("0x" ++ rest)) with (substring 64 64 rest).
  change (substring 130 (132 - 130) ("0x" ++ rest)) with (substring 128 2 rest).
  rewrite !substring_within by lia. reflexivity.
Qed.

Lemma other_prefix_and_tail_same_parse :
  (130 <= String.length (hexOfBytes false sample))%nat
  /\ parseSignature
       (String "Z" (String "Z" (hexOfBytes false sample ++ "trailing garbage"))) 6343
     = parseSignature (toHex false sample) 6343.
Proof.
  assert (H : (130 <= String.length (hexOfBytes false sample))%nat)
    by (vm_compute; lia).
  split; [exact H|].
  exact (prefix_and_tail_are_ignored "Z" "Z" (hexOfBytes false sample)
           "trailing garbage" 6343 H).
Defined.

End SignatureMoreFacts.

(** * More properties of the signing warmup *)

Section WarmupMoreClaims.

Import Warmup WarmupMore.

Context {State : Type}.
Variable getEthereumProvider : State -> (JsError + unit) * State.
Variable secp256k1_sign : string -> State -> (JsError + string) * State.

(** X15. [warmup()] fulfils exactly when one of its signing requests went
    through.  It issues at most two of them, each for the dummy hash, and
    none at all when the provider cannot be obtained. *)
Theorem warmup_fulfils_iff_a_request_went_through :
  forall c : State,
    let attempt := warmup getEthereumProvider secp256k1_sign c in
    (outcome attempt = inr tt <-> aRequestWentThrough attempt = true)
    /\ (length (signingCalls attempt) <= 2)%nat
    /\ Forall (fun st => exists r, st = Signed dummyHash r) (signingCalls attempt)
    /\ (forall e c0, getEthereumProvider c = (inl e, c0) ->
          outcome attempt = inl e /\ steps attempt = []).
Proof.
  intros c attempt. subst attempt. unfold warmup, signingCalls, aRequestWentThrough.
  destruct (getEthereumProvider c) as [[e | []] c0].
  - cbn. split; [split; discriminate|]. split; [lia|]. split; [constructor|].
    intros e' c' Heq. inversion Heq; subst. by split.
  - destruct (secp256k1_sign dummyHash c0) as [[e1 | sig1] c1].
    + destruct (secp256k1_sign dummyHash c1) as [[e2 | sig2] c2]; cbn.
      * split; [split; discriminate|]. split; [lia|].
        split; [repeat constructor; eauto | intros ? ? Heq; discriminate Heq].
      * split; [split; reflexivity|]. split; [lia|].
        split; [repeat constructor; eauto | intros ? ? Heq; discriminate Heq].
    + cbn. split; [split; reflexivity|]. split; [lia|].
      split; [repeat constructor; eauto | intros ? ? Heq; discriminate Heq].
Qed.

(** X16. The success message is logged only when the first request
    succeeds.  A warmup that succeeds on the retry logs nothing. *)
Theorem warmup_logs_only_first_try_success :
  forall c : State,
    let attempt := warmup getEthereumProvider secp256k1_sign c in
    (existsb isLogged (steps attempt) = true
     <-> exists c0 c1 sig,
          getEthereumProvider c = (inr tt, c0)
          /\ secp256k1_sign dummyHash c0 = (inr sig, c1))
    /\ (forall c0 c1 c2 e sig,
          getEthereumProvider c = (inr tt, c0) ->
          secp256k1_sign dummyHash c0 = (inl e, c1) ->
          secp256k1_sign dummyHash c1 = (inr sig, c2) ->
          outcome attempt = inr tt /\ existsb isLogged (steps attempt) = false).
Proof.
  intros c attempt. subst attempt. unfold warmup.
  destruct (getEthereumProvider c) as [[e | []] c0].
  - cbn. split.
    + split; [discriminate|]. intros (? & ? & ? & Heq & _). discriminate Heq.
    + intros ? ? ? ? ? Heq. discriminate Heq.
  - destruct (secp256k1_sign dummyHash c0) as [[e1 | sig1] c1] eqn:H1.
    + destruct (secp256k1_sign dummyHash c1) as [[e2 | sig2] c2] eqn:H2; cbn.
      * split.
        -- split; [discriminate|]. intros (c0' & c1' & sig & Heq & Hs).
           inversion Heq; subst. rewrite H1 in Hs. discriminate Hs.
        -- intros ? ? ? ? ? Heq Hs1 Hs2. inversion Heq; subst.
           rewrite H1 in Hs1. inversion Hs1; subst. rewrite H2 in Hs2.
           discriminate Hs2.
      * split.
        -- split; [discriminate|]. intros (c0' & c1' & sig & Heq & Hs).
           inversion Heq; subst. rewrite H1 in Hs. discriminate Hs.
        -- intros. split; reflexivity.
    + cbn. split.
      * split; [|reflexivity]. intros _. exists c0, c1, sig1. by split.
      * intros ? ? ? ? ? Heq Hs1. inversion Heq; subst.
        rewrite H1 in Hs1. discriminate Hs1.
Qed.

End WarmupMoreClaims.

(** The signer fails once: the warmup succeeds on the retry, silently. *)
Example retry_success_is_silent :
  Warmup.outcome (Warmup.Scripted.warmup WarmupMore.failing_once) = inr tt
  /\ existsb WarmupMore.isLogged
       (Warmup.steps (Warmup.Scripted.warmup WarmupMore.failing_once)) = false
  /\ Warmup.aRequestWentThrough (Warmup.Scripted.warmup WarmupMore.failing_once) = true.
Proof. repeat split. Qed.

Section HookMoreFacts.

Import Warmup WarmupMore.

Lemma elem_of_insert_iff (l : list EffectRun) i s s' x :
  l !! i = Some s -> s <> x ->
  (x ∈ <[i := s']> l <-> s' = x \/ x ∈ l).
Proof.
  intros Hi Hs. rewrite !list_elem_of_lookup. split.
  - intros [j Hj]. destruct (decide (j = i)) as [-> | Hne].
    + rewrite list_lookup_insert_eq in Hj by (by eapply lookup_lt_Some).
      left. congruence.
    + rewrite list_lookup_insert_ne in Hj by done. right. by exists j.
  - intros [-> | [j Hj]].
    + exists i. apply list_lookup_insert_eq. by eapply lookup_lt_Some.
    + exists j. rewrite list_lookup_insert_ne; [done|]. intros ->. congruence.
Qed.

Lemma exec_flag_tells h act h' :
  exec h act = Some h' -> flag_tells h -> flag_tells h'.
Proof.
  unfold flag_tells. intros Hexec Hflag.
  destruct act as [hasWallet | i r | i r | i | i r]; cbn [exec] in Hexec.
  - inversion Hexec; subst; clear Hexec. cbn [isWarmedUp runs].
    rewrite elem_of_app, list_elem_of_singleton.
    destruct (negb hasWallet || isWarmedUp h); split; intros H;
      try (left; tauto); destruct H as [H | H]; try discriminate; tauto.
  - destruct (runs h !! i) as [[]|] eqn:Hi; try discriminate.
    inversion Hexec; subst; clear Hexec. cbn [set_run isWarmedUp runs].
    rewrite (elem_of_insert_iff _ _ _ _ _ Hi) by discriminate.
    destruct r; split; intros H; try tauto; destruct H as [H | H];
      try discriminate; tauto.
  - destruct (runs h !! i) as [[]|] eqn:Hi; try discriminate.
    inversion Hexec; subst; clear Hexec. cbn [set_run isWarmedUp runs].
    rewrite (elem_of_insert_iff _ _ _ _ _ Hi) by discriminate.
    destruct r; split; intros H; try tauto; destruct H as [H | H];
      try discriminate; tauto.
  - destruct (runs h !! i) as [[]|] eqn:Hi; try discriminate.
    inversion Hexec; subst; clear Hexec. cbn [isWarmedUp runs].
    rewrite (elem_of_insert_iff _ _ _ _ _ Hi) by discriminate.
    split; intros H; try tauto; destruct H as [H | H]; try discriminate; tauto.
  - destruct (runs h !! i) as [[]|] eqn:Hi; try discriminate.
    destruct r as [e | sig]; inversion Hexec; subst; clear Hexec;
      cbn [set_run isWarmedUp runs];
      rewrite (elem_of_insert_iff _ _ _ _ _ Hi) by discriminate.
    + split; intros H; try tauto; destruct H as [H | H]; try discriminate; tauto.
    + split; [by left | reflexivity].
Qed.

Lemma exec_flag_stays h act h' :
  exec h act = Some h' -> isWarmedUp h = true -> isWarmedUp h' = true.
Proof.
  intros Hexec Hflag.
  destruct act as [hasWallet | i r | i r | i | i r]; cbn [exec] in Hexec.
  - by inversion Hexec; subst.
  - destruct (runs h !! i) as [[]|]; try discriminate. by inversion Hexec; subst.
  - destruct (runs h !! i) as [[]|]; try discriminate. by inversion Hexec; subst.
  - destruct (runs h !! i) as [[]|]; try discriminate. by inversion Hexec; subst.
  - destruct (runs h !! i) as [[]|]; try discriminate.
    destruct r; by inversion Hexec; subst.
Qed.

Lemma run_flag_tells acts : forall h0 h1,
  run h0 acts = Some h1 -> flag_tells h0 -> flag_tells h1.
Proof.
  induction acts as [|act acts IH]; intros h0 h1 Hrun H0; simpl in Hrun.
  - by inversion Hrun; subst.
  - destruct (exec h0 act) as [h2|] eqn:Hexec; [|discriminate].
    eapply IH; [exact Hrun|]. by eapply exec_flag_tells.
Qed.

Lemma mounted_flag_tells : flag_tells mounted.
Proof.
  unfold flag_tells, mounted. cbn.
  split; [discriminate|]. intros H. by apply elem_of_nil in H.
Qed.

(** Writing to the entry that was appended last. *)
Lemma snoc_replaced (l : list EffectRun) (s s' : EffectRun) :
  <[length l := s']> (l ++ [s]) = l ++ [s'].
Proof.
  rewrite insert_app_r_alt by lia. by rewrite Nat.sub_diag.
Qed.

(** X17. [isWarmedUp.current] is true exactly when some run of the effect
    has seen its signing request succeed, in every schedule; and once true
    it stays true. *)
Theorem flag_means_a_warmup_went_through :
  forall (acts more : list Action) (h h' : Hook),
    run mounted acts = Some h ->
    run h more = Some h' ->
    (isWarmedUp h = true <-> Ready ∈ runs h)
    /\ (isWarmedUp h = true -> isWarmedUp h' = true).
Proof.
  intros acts more h h' Hrun Hmore. split.
  - exact (run_flag_tells _ _ _ Hrun mounted_flag_tells).
  - clear Hrun. revert h Hmore.
    induction more as [|act more IH]; intros h Hmore Hflag; simpl in Hmore.
    + by inversion Hmore; subst.
    + destruct (exec h act) as [h2|] eqn:Hexec; [|discriminate].
      eapply IH; [exact Hmore|]. by eapply exec_flag_stays.
Qed.

(** X18. The hook does not remember a failed warmup.  In every schedule,
    as long as no run of the effect has gone through, the next run of the
    effect for a wallet gets past the guard and, once the provider, the RPC
    warmup and the timer have come back, asks the signer once more; so a
    warmup that failed is repeated by each later run of the effect, and by
    nothing else. *)
Theorem failed_warmup_is_repeated_by_the_next_run :
  forall (acts : list Action) (h : Hook) (blockNumber : Z),
    run mounted acts = Some h ->
    Ready ∉ runs h ->
    let i := length (runs h) in
    isWarmedUp h = false
    /\ run h [Effect true; ProviderSettled i (inr tt);
              BlockNumberSettled i (inr blockNumber); TimerFired i]
       = Some {| isWarmedUp := false; signRequests := S (signRequests h);
                 runs := runs h ++ [AwaitSign] |}.
Proof.
  intros acts h blockNumber Hrun Hnone i. subst i.
  assert (Hcold : isWarmedUp h = false).
  { pose proof (run_flag_tells _ _ _ Hrun mounted_flag_tells) as Hflag.
    unfold flag_tells in Hflag.
    destruct (isWarmedUp h); [|reflexivity].
    exfalso. apply Hnone. by apply Hflag. }
  split; [exact Hcold|].
  cbn [run exec]. rewrite Hcold. cbn [negb orb runs].
  rewrite list_lookup_middle by reflexivity.
  cbn [set_run runs isWarmedUp signRequests].
  rewrite !snoc_replaced, list_lookup_middle by reflexivity.
  cbn [set_run runs isWarmedUp signRequests].
  rewrite !snoc_replaced, list_lookup_middle by reflexivity.
  cbn [runs isWarmedUp signRequests].
  reflexivity.
Qed.

End HookMoreFacts.

(** The signer fails in the first run of the effect; the effect runs again
    and the signer is asked a second time. *)
Lemma failed_signing_is_repeated :
  exists h,
    Warmup.run Warmup.mounted WarmupMore.signer_fails = Some h
    /\ Warmup.runs h = [Warmup.Rejected (mkError "signer not initialised")]
    /\ Warmup.signRequests h = 1%nat
    /\ (Warmup.Ready ∉ Warmup.runs h)
    /\ Warmup.run h [Warmup.Effect true; Warmup.ProviderSettled 1 (inr tt);
                     Warmup.BlockNumberSettled 1 (inr 0); Warmup.TimerFired 1]
       = Some {| Warmup.isWarmedUp := false; Warmup.signRequests := 2;
                 Warmup.runs := [Warmup.Rejected (mkError "signer not initialised");
                                 Warmup.AwaitSign] |}.
Proof.
  assert (H1 : Warmup.run Warmup.mounted WarmupMore.signer_fails
               = Some {| Warmup.isWarmedUp := false; Warmup.signRequests := 1;
                         Warmup.runs :=
                           [Warmup.Rejected (mkError "signer not initialised")] |})
    by reflexivity.
  assert (Hnone : Warmup.Ready
                  ∉ [Warmup.Rejected (mkError "signer not initialised")]).
  { intros Hin. apply list_elem_of_singleton in Hin. discriminate Hin. }
  eexists. split; [exact H1|]. split; [reflexivity|]. split; [reflexivity|].
  split; [exact Hnone|].
  exact (proj2 (failed_warmup_is_repeated_by_the_next_run _ _ 0 H1 Hnone)).
Defined.

(** In the same schedule the flag is set at the end, and a run is ready. *)
Lemma flag_set_by_second_run :
  exists h,
    Warmup.run Warmup.mounted WarmupMore.first_fails_second_succeeds = Some h
    /\ Warmup.run h [Warmup.Effect true] = Some
         {| Warmup.isWarmedUp := true; Warmup.signRequests := 1;
            Warmup.runs := [Warmup.Rejected (mkError "HTTP request failed");
                            Warmup.Ready; Warmup.Skipped] |}
    /\ (Warmup.isWarmedUp h = true <-> Warmup.Ready ∈ Warmup.runs h).
Proof.
  assert (H1 : Warmup.run Warmup.mounted WarmupMore.first_fails_second_succeeds
               = Some {| Warmup.isWarmedUp := true; Warmup.signRequests := 1;
                         Warmup.runs := [Warmup.Rejected (mkError "HTTP request failed");
                                         Warmup.Ready] |})
    by reflexivity.
  eexists. split; [exact H1|]. split; [reflexivity|].
  exact (proj1 (flag_means_a_warmup_went_through _ [Warmup.Effect true] _ _
                  H1 eq_refl)).
Defined.

(** * Properties of [useMegaETHTransaction.sendTransaction] *)

Section SendTransactionFacts.

Import SendTransaction.

Variable serializeTransaction :
  UnsignedTx -> option Signature.Parsed -> JsError + string.
Variable keccak256 : string -> JsError + string.

Abbreviation send := (sendTransaction serializeTransaction keccak256).

(** Once the pending count has arrived, the transaction is built and the
    cell holds its nonce, whatever happens afterwards. *)
Lemma send_builds (recipient : string) (amount last n : Z) (a : Answers) :
  hasWallet a = true ->
  provider a = inr tt ->
  count a = inr n ->
  let next := if last >=? n then Number.add last 1 else n in
  built (send recipient amount last a)
  = Some {| to := recipient; value := amount; gas := 100000; gasPrice := 1000000;
            nonce := next; chainId := 6343 |}
  /\ lastNonce (send recipient amount last a) = next
  /\ exists e, outcome (send recipient amount last a) = e.
Proof.
  intros Hw Hp Hc next. subst next. unfold sendTransaction. rewrite Hw, Hp, Hc.
  cbn [negb Hooks.getNextNonce].
  destruct (serializeTransaction _ None) as [e | serialized]; [by eauto|].
  destruct (keccak256 serialized) as [e | hash]; [by eauto|].
  destruct (signature a) as [e | sig]; [by eauto|].
  destruct (Signature.sendTransaction_parse sig) as [rsv|]; [|by eauto].
  destruct (serializeTransaction _ (Some rsv)) as [e | signedTx]; [by eauto|].
  destruct (reply a) as [e | body]; [by eauto|].
  destruct (error body); by eauto.
Qed.

(** X19. The nonce is spent when the pending count arrives, not when the
    transaction goes out.  If a call fails after that point (the recipient
    is refused by the serialization, the signer fails, the signature cannot
    be parsed, the post fails or the node answers with an error), the cell
    keeps the nonce; the next call, told the same pending count, builds its
    transaction with the nonce after it, although the earlier one was never
    accepted.  When the serialization refuses the transaction the signer is
    not even asked; when the signer fails nothing is posted. *)
Theorem failed_send_still_spends_the_nonce :
  forall (to1 to2 : string) (value1 value2 last n : Z) (a1 a2 : Answers),
    hasWallet a1 = true -> provider a1 = inr tt -> count a1 = inr n ->
    hasWallet a2 = true -> provider a2 = inr tt -> count a2 = inr n ->
    Number.isSafeInteger last ->
    Number.isSafeInteger (Z.max n (last + 1)) ->
    let first := send to1 value1 last a1 in
    let second := send to2 value2 (lastNonce first) a2 in
    exists tx1 tx2,
      built first = Some tx1
      /\ built second = Some tx2
      /\ nonce tx1 = Z.max n (last + 1)
      /\ lastNonce first = nonce tx1
      /\ nonce tx2 = nonce tx1 + 1
      /\ (forall e, serializeTransaction tx1 None = inl e ->
            outcome first = inl e
            /\ signedHash first = None /\ posted first = None)
      /\ (forall serialized hash e,
            serializeTransaction tx1 None = inr serialized ->
            keccak256 serialized = inr hash ->
            signature a1 = inl e ->
            outcome first = inl e
            /\ signedHash first = Some hash /\ posted first = None).
Proof.
  intros to1 to2 value1 value2 last n a1 a2 Hw1 Hp1 Hc1 Hw2 Hp2 Hc2
         Hlast Hnext first second.
  destruct (send_builds to1 value1 last n a1 Hw1 Hp1 Hc1) as (Hb1 & Hl1 & _).
  destruct (send_builds to2 value2 (lastNonce first) n a2 Hw2 Hp2 Hc2)
    as (Hb2 & _ & _).
  fold first in Hb1, Hl1. fold second in Hb2.
  rewrite bump_max in Hb1, Hl1 by exact Hlast.
  assert (Hsafe1 : Number.isSafeInteger (lastNonce first)) by (by rewrite Hl1).
  rewrite bump_max in Hb2 by exact Hsafe1.
  eexists _, _. split; [exact Hb1|]. split; [exact Hb2|].
  cbn [nonce]. split; [reflexivity|]. split; [exact Hl1|].
  split; [rewrite Hl1; lia|]. split.
  - intros e He. subst first. unfold sendTransaction.
    rewrite Hw1, Hp1, Hc1. cbn [negb Hooks.getNextNonce].
    rewrite bump_max by exact Hlast. change gwei_0_001 with 1000000. change Signature.CHAIN_ID with 6343.
    rewrite He. by split.
  - intros serialized hash e Hs Hh He. subst first. unfold sendTransaction.
    rewrite Hw1, Hp1, Hc1. cbn [negb Hooks.getNextNonce].
    rewrite bump_max by exact Hlast. change gwei_0_001 with 1000000. change Signature.CHAIN_ID with 6343.
    rewrite Hs, Hh, He. by split.
Qed.

(** X20. A call that fails before the pending count is known changes
    nothing: without a Privy wallet, or when the provider or the count
    query rejects, the nonce cell is as it was, nothing is built, nothing is
    signed and nothing is posted. *)
Theorem early_failure_changes_nothing :
  forall (recipient : string) (amount last : Z) (a : Answers),
    hasWallet a = false
    \/ (exists e, provider a = inl e)
    \/ (exists e, count a = inl e) ->
    let sent := send recipient amount last a in
    lastNonce sent = last
    /\ built sent = None /\ signedHash sent = None /\ posted sent = None
    /\ exists e, outcome sent = inl e
                 /\ (hasWallet a = false -> e = noWallet).
Proof.
  intros recipient amount last a Hearly sent. subst sent. unfold sendTransaction.
  destruct (hasWallet a) eqn:Hw; cbn [negb].
  - destruct Hearly as [Hno | [[e He] | [e He]]]; [discriminate | |].
    + rewrite He. cbn. repeat split. exists e. split; [reflexivity | discriminate].
    + destruct (provider a) as [e' | u].
      * cbn. repeat split. exists e'. split; [reflexivity | discriminate].
      * rewrite He. cbn. repeat split. exists e. split; [reflexivity | discriminate].
  - cbn. repeat split. exists noWallet. by split.
Qed.

(** X21. Nothing is posted unless every earlier step succeeded, and what is
    posted is the very transaction whose hash was signed, serialized with
    the parsed signature.  The call returns a result only if the
    transaction was posted and the reply carries no error: an [error] in
    the reply is thrown, with its message, even when a [result] came with
    it. *)
Theorem only_the_signed_transaction_is_posted :
  forall (recipient : string) (amount last : Z) (a : Answers),
    let sent := send recipient amount last a in
    (forall raw, posted sent = Some raw ->
       exists tx serialized hash sig rsv,
         built sent = Some tx
         /\ serializeTransaction tx None = inr serialized
         /\ keccak256 serialized = inr hash
         /\ signedHash sent = Some hash
         /\ signature a = inr sig
         /\ Signature.parseSignature sig 6343 = Some rsv
         /\ serializeTransaction tx (Some rsv) = inr raw)
    /\ (forall res, outcome sent = inr res ->
          exists raw body, posted sent = Some raw
                           /\ reply a = inr body
                           /\ error body = None /\ result body = res)
    /\ (forall body e, posted sent <> None -> reply a = inr body ->
          error body = Some e -> outcome sent = inl (mkError (message e))).
Proof.
  intros recipient amount last a sent. subst sent. unfold sendTransaction.
  destruct (hasWallet a); cbn [negb];
    [|cbn; split; [|split]; [discriminate | discriminate | congruence]].
  destruct (provider a) as [e | u];
    [cbn; split; [|split]; [discriminate | discriminate | congruence]|].
  destruct (Hooks.getNextNonce last (count a)) as [[e | n] cell];
    [cbn; split; [|split]; [discriminate | discriminate | congruence]|].
  destruct (serializeTransaction _ None) as [e | serialized] eqn:Hser;
    [cbn; split; [|split]; [discriminate | discriminate | congruence]|].
  destruct (keccak256 serialized) as [e | hash] eqn:Hhash;
    [cbn; split; [|split]; [discriminate | discriminate | congruence]|].
  destruct (signature a) as [e | sig];
    [cbn; split; [|split]; [discriminate | discriminate | congruence]|].
  change (Signature.sendTransaction_parse sig)
    with (Signature.parseSignature sig 6343).
  destruct (Signature.parseSignature sig 6343) as [rsv|] eqn:Hparse;
    [|cbn; split; [|split]; [discriminate | discriminate | congruence]].
  destruct (serializeTransaction _ (Some rsv)) as [e | signedTx] eqn:Hsigned;
    [cbn; split; [|split]; [discriminate | discriminate | congruence]|].
  destruct (reply a) as [e | body].
  - cbn. split; [|split]; [|discriminate|discriminate].
    intros raw Hraw. inversion Hraw; subst. by eexists _, _, _, _, _.
  - destruct (error body) as [e|] eqn:Herr; cbn.
    + split; [|split]; [|discriminate|].
      * intros raw Hraw. inversion Hraw; subst. by eexists _, _, _, _, _.
      * intros body' e' _ Hb He. inversion Hb; subst. congruence.
    + split; [|split].
      * intros raw Hraw. inversion Hraw; subst. by eexists _, _, _, _, _.
      * intros res Hres. inversion Hres; subst. by eexists _, _.
      * intros body' e' _ Hb He. inversion Hb; subst. congruence.
Qed.

End SendTransactionFacts.

(** The signer is down for the first call: nonce 7 is built into a
    transaction that is never posted, and the next call uses 8. *)
Lemma signer_down_leaves_a_gap :
  Number.isSafeInteger (-1)
  /\ Number.isSafeInteger (Z.max 7 (-1 + 1))
  /\ exists tx1 tx2,
      SendTransaction.built
        (SendTransaction.sendTransaction SendTransaction.serialize SendTransaction.mark
           SendTransaction.weth 1 (-1) SendTransaction.signer_down) = Some tx1
      /\ SendTransaction.built
           (SendTransaction.sendTransaction SendTransaction.serialize SendTransaction.mark
              SendTransaction.weth 1
              (SendTransaction.lastNonce
                 (SendTransaction.sendTransaction SendTransaction.serialize
                    SendTransaction.mark SendTransaction.weth 1 (-1)
                    SendTransaction.signer_down))
              SendTransaction.all_well) = Some tx2
      /\ SendTransaction.nonce tx1 = 7
      /\ SendTransaction.nonce tx2 = 8
      /\ SendTransaction.outcome
           (SendTransaction.sendTransaction SendTransaction.serialize SendTransaction.mark
              SendTransaction.weth 1 (-1) SendTransaction.signer_down)
         = inl (mkError "signer unavailable")
      /\ SendTransaction.posted
           (SendTransaction.sendTransaction SendTransaction.serialize SendTransaction.mark
              SendTransaction.weth 1 (-1) SendTransaction.signer_down) = None.
Proof.
  assert (Hs1 : Number.isSafeInteger (-1)) by (vm_compute; split; discriminate).
  assert (Hs2 : Number.isSafeInteger (Z.max 7 (-1 + 1)))
    by (vm_compute; split; discriminate).
  split; [exact Hs1|]. split; [exact Hs2|].
  destruct (failed_send_still_spends_the_nonce
              SendTransaction.serialize SendTransaction.mark
              SendTransaction.weth SendTransaction.weth 1 1 (-1) 7
              SendTransaction.signer_down SendTransaction.all_well
              eq_refl eq_refl eq_refl eq_refl eq_refl eq_refl Hs1 Hs2)
    as (tx1 & tx2 & H1 & H2 & Hn1 & _ & Hn2 & _ & Hfail).
  exists tx1, tx2. split; [exact H1|]. split; [exact H2|].
  split; [exact Hn1|]. split; [rewrite Hn2, Hn1; reflexivity|].
  assert (Htx1 : tx1 = {| SendTransaction.to := SendTransaction.weth;
                          SendTransaction.value := 1;
                          SendTransaction.gas := 100000;
                          SendTransaction.gasPrice := 1000000;
                          SendTransaction.nonce := 7;
                          SendTransaction.chainId := 6343 |}).
  { vm_compute in H1. by inversion H1. }
  subst tx1.
  destruct (Hfail _ _ (mkError "signer unavailable") eq_refl eq_refl eq_refl)
    as (Hout & _ & Hposted).
  split; [exact Hout | exact Hposted].
Defined.

(** A recipient that is no address: the serialization throws before the
    signer is asked, and nonce 7 is spent all the same. *)
Example invalid_recipient_spends_the_nonce :
  SendTransaction.sendTransaction SendTransaction.serialize SendTransaction.mark
    SendTransaction.noAddress 1 (-1) SendTransaction.all_well
  = {| SendTransaction.outcome :=
         inl (SendTransaction.invalidAddress SendTransaction.noAddress);
       SendTransaction.lastNonce := 7;
       SendTransaction.built :=
         Some {| SendTransaction.to := SendTransaction.noAddress;
                 SendTransaction.value := 1;
                 SendTransaction.gas := 100000;
                 SendTransaction.gasPrice := 1000000;
                 SendTransaction.nonce := 7;
                 SendTransaction.chainId := 6343 |};
       SendTransaction.signedHash := None;
       SendTransaction.posted := None |}.
Proof. reflexivity. Qed.

(** Without a Privy wallet the call throws at once and the cell keeps 4. *)
Lemma no_wallet_changes_nothing :
  SendTransaction.hasWallet SendTransaction.no_wallet = false
  /\ SendTransaction.lastNonce
       (SendTransaction.sendTransaction SendTransaction.serialize SendTransaction.mark
          "0xB" 1 4 SendTransaction.no_wallet) = 4
  /\ SendTransaction.posted
       (SendTransaction.sendTransaction SendTransaction.serialize SendTransaction.mark
          "0xB" 1 4 SendTransaction.no_wallet) = None.
Proof.
  split; [reflexivity|].
  destruct (early_failure_changes_nothing
              SendTransaction.serialize SendTransaction.mark
              "0xB" 1 4 SendTransaction.no_wallet (or_introl eq_refl))
    as (Hcell & _ & _ & Hposted & _).
  split; [exact Hcell | exact Hposted].
Defined.

(** * Properties of the circular buffer *)

Section CircularBufferFacts.

Import CircularBuffer.

Lemma processAll_app (l1 l2 : list Z) : forall st,
  processAll (l1 ++ l2) st
  = match processAll l1 st with Some st1 => processAll l2 st1 | None => None end.
Proof.
  induction l1 as [|v l1 IH]; intros st; simpl; [reflexivity|].
  destruct (process v st); [apply IH | reflexivity].
Qed.

Lemma slots_differ (i n : nat) :
  (i < n)%nat -> (n < i + 100)%nat -> (i mod 100 <> n mod 100)%nat.
Proof.
  intros Hlt Hnear Heq.
  pose proof (Nat.div_mod_eq i 100) as Hi.
  pose proof (Nat.div_mod_eq n 100) as Hn.
  rewrite Heq in Hi. lia.
Qed.

(** X22. The buffer reuses its hundred slots for ever.  Starting from the
    deployed contract, no sequence of [process] calls reverts; the array
    keeps its 100 slots; [head] is the number of calls modulo 100; and each
    of the last hundred values is still in its slot, the i-th value in slot
    i mod 100. *)
Theorem buffer_keeps_the_last_hundred :
  forall values : list Z,
    exists st,
      processAll values deployed = Some st
      /\ head st = Z.of_nat (length values) mod 100
      /\ length (buffer st) = 100%nat
      /\ (forall i : nat,
            (i < length values)%nat ->
            (length values <= i + 100)%nat ->
            buffer st !! (i mod 100)%nat = values !! i).
Proof.
  induction values as [|v values IH] using rev_ind.
  - exists deployed. split; [reflexivity|]. split; [reflexivity|].
    split; [reflexivity|]. intros i Hi. simpl in Hi. lia.
  - destruct IH as (st & Hrun & Hhead & Hlen & Hkept).
    rewrite processAll_app, Hrun. cbn [processAll]. unfold process.
    assert (Hrange : 0 <= head st < 100) by (rewrite Hhead; apply Z.mod_pos_bound; lia).
    replace ((0 <=? head st) && (head st <? 100)) with true
      by (symmetry; apply andb_true_iff; split; [apply Z.leb_le | apply Z.ltb_lt]; lia).
    eexists. split; [reflexivity|]. cbn [head buffer].
    assert (Hslot : Z.to_nat (head st) = (length values mod 100)%nat).
    { rewrite Hhead. rewrite <- (Nat2Z.id (length values mod 100)).
      f_equal. rewrite Nat2Z.inj_mod. reflexivity. }
    split; [|split].
    + rewrite Hhead, length_app. cbn [length]. rewrite Nat2Z.inj_add.
      rewrite Z.add_mod_idemp_l by lia. reflexivity.
    + by rewrite length_insert.
    + intros i Hi Hnear. rewrite length_app in Hi, Hnear. cbn [length] in Hi, Hnear.
      rewrite Hslot.
      destruct (decide (i = length values)) as [-> | Hne].
      * rewrite list_lookup_insert_eq
          by (rewrite Hlen; apply Nat.mod_upper_bound; lia).
        symmetry. by apply list_lookup_middle.
      * rewrite list_lookup_insert_ne by (apply not_eq_sym, slots_differ; lia).
        rewrite lookup_app_l by lia. apply Hkept; lia.
Qed.

End CircularBufferFacts.

(** * Properties of the SSTORE2 helpers *)

Section Sstore2Facts.

Import Sstore2.

(** X23. The deployment estimate is exactly 138,000 gas plus 15,240 gas per
    byte: the 50% buffer never loses anything to the integer division. *)
Theorem deploy_gas_is_linear :
  forall dataSizeBytes : Z,
    estimateDeployGas dataSizeBytes = 138000 + 15240 * dataSizeBytes
    /\ estimateDeployGas (dataSizeBytes + 1) = estimateDeployGas dataSizeBytes + 15240.
Proof.
  assert (H : forall n, estimateDeployGas n = 138000 + 15240 * n).
  { intros n. unfold estimateDeployGas, INTRINSIC_COMPUTE, INTRINSIC_STORAGE,
      CONTRACT_CREATION_COMPUTE, CODE_DEPOSIT_PER_BYTE, CALLDATA_NONZERO_PER_BYTE.
    cbv zeta.
    replace ((21000 + 32000 + (39000 + n * 10000 + n * 160)) * 150)
      with ((138000 + 15240 * n) * 100) by lia.
    apply Z.quot_mul. lia. }
  intros n. rewrite !H. split; lia.
Qed.

Context {A : Type}.

Lemma chunkLoop_concat (size : nat) (data : list A) :
  (0 < size)%nat ->
  forall fuel i,
    (length data - i <= fuel)%nat ->
    concat (chunkLoop size fuel i data) = drop i data.
Proof.
  intros Hsize. induction fuel as [|fuel IH]; intros i Hfuel; cbn [chunkLoop].
  - symmetry. apply drop_ge. lia.
  - destruct (Nat.ltb_spec i (length data)) as [Hlt | Hge].
    + cbn [concat]. rewrite IH by lia.
      rewrite <- drop_drop. apply take_drop.
    + symmetry. apply drop_ge. lia.
Qed.

(** The k-th chunk is the slice starting at [i + k * size]. *)
Lemma chunkLoop_lookup (size : nat) (data : list A) : forall fuel i k c,
  chunkLoop size fuel i data !! k = Some c ->
  c = take size (drop (i + k * size) data) /\ (i + k * size < length data)%nat.
Proof.
  induction fuel as [|fuel IH]; intros i k c Hk; cbn [chunkLoop] in Hk.
  - by rewrite lookup_nil in Hk.
  - destruct (Nat.ltb_spec i (length data)) as [Hlt | Hge];
      [|by rewrite lookup_nil in Hk].
    destruct k as [|k].
    + inversion Hk; subst. rewrite Nat.add_0_r. by split.
    + cbn in Hk. destruct (IH _ _ _ Hk) as [-> Hin].
      replace (i + size + k * size)%nat with (i + S k * size)%nat in * by lia.
      by split.
Qed.

(** X24. [chunkData] cuts the data into consecutive pieces and loses
    nothing: the chunks put together are the data again; no chunk is empty
    or longer than [CHUNK_SIZE]; and every chunk but the last has exactly
    [CHUNK_SIZE] elements.  Empty data gives no chunk. *)
Theorem chunks_partition_the_data :
  forall data : list A,
    concat (chunkData data) = data
    /\ Forall (fun c => (0 < length c <= CHUNK_SIZE)%nat) (chunkData data)
    /\ (forall k c,
          chunkData data !! k = Some c ->
          (S k < length (chunkData data))%nat ->
          length c = CHUNK_SIZE)
    /\ (chunkData data = [] <-> data = []).
Proof.
  intros data. assert (Hsize : (0 < CHUNK_SIZE)%nat) by (unfold CHUNK_SIZE; lia).
  unfold chunkData. generalize dependent CHUNK_SIZE. intros size Hsize.
  assert (Hcat : concat (chunkLoop size (length data) 0 data) = data).
  { rewrite chunkLoop_concat by lia. reflexivity. }
  split; [exact Hcat|]. split; [|split].
  - apply Forall_forall. intros c Hc.
    apply list_elem_of_lookup in Hc as [k Hk].
    destruct (chunkLoop_lookup _ _ _ _ _ _ Hk) as [-> Hin].
    rewrite length_take, length_drop. lia.
  - intros k c Hk Hnext.
    destruct (lookup_lt_is_Some_2 _ _ Hnext) as [c' Hk'].
    destruct (chunkLoop_lookup _ _ _ _ _ _ Hk) as [-> _].
    destruct (chunkLoop_lookup _ _ _ _ _ _ Hk') as [_ Hin].
    rewrite length_take, length_drop. lia.
  - split.
    + intros Hnil. rewrite Hnil in Hcat. by rewrite <- Hcat.
    + intros ->. reflexivity.
Qed.

End Sstore2Facts.

(** * Properties of the error messages *)

Section TxErrorFacts.

Import TxErrors.
Local Open Scope string_scope.

Lemma firstMatch_spec (table : list (string * string)) (text : string) :
  (firstMatch table text = None
   /\ Forall (fun entry => ~ occurs (fst entry) text) table)
  \/ (exists before pattern shown after,
        table = (before ++ (pattern, shown) :: after)%list
        /\ occurs pattern text
        /\ Forall (fun entry => ~ occurs (fst entry) text) before
        /\ firstMatch table text = Some shown).
Proof.
  induction table as [|[pattern shown] table IH]; simpl.
  - left. split; [reflexivity | constructor].
  - destruct (Submission.includes text pattern) eqn:Hinc.
    + right. exists [], pattern, shown, table.
      split; [reflexivity|]. split; [by apply includes_spec|].
      split; [constructor | reflexivity].
    + assert (Hno : ~ occurs pattern text).
      { intros Hocc. apply includes_spec in Hocc. congruence. }
      destruct IH as [[Hnone Hall] | (before & p & m & after & -> & Hocc & Hall & Hm)].
      * left. split; [exact Hnone|]. by constructor.
      * right. exists ((pattern, shown) :: before), p, m, after.
        split; [reflexivity|]. split; [exact Hocc|].
        split; [by constructor | exact Hm].
Qed.

(** X25. [handleTxError] shows the message of the first pattern, in the
    order of the table, that occurs in the error's message, and
    'Transaction failed' when none of the patterns occurs.  So an error
    that mentions 'nonce too low' is always shown as 'Transaction already
    executed', whatever else it mentions. *)
Theorem first_matching_pattern_wins :
  forall error : JsError,
    ((Forall (fun entry => ~ occurs (fst entry) (message error)) TX_ERRORS
      /\ handleTxError error = "Transaction failed")
     \/ (exists before pattern shown after,
           TX_ERRORS = (before ++ (pattern, shown) :: after)%list
           /\ occurs pattern (message error)
           /\ Forall (fun entry => ~ occurs (fst entry) (message error)) before
           /\ handleTxError error = shown))
    /\ (occurs "nonce too low" (message error) ->
        handleTxError error = "Transaction already executed").
Proof.
  intros error. unfold handleTxError. split.
  - destruct (firstMatch_spec TX_ERRORS (message error))
      as [[Hnone Hall] | (before & p & m & after & Heq & Hocc & Hall & Hm)].
    + left. rewrite Hnone. by split.
    + right. exists before, p, m, after. rewrite Hm. by repeat split.
  - intros Hocc. apply includes_spec in Hocc. cbn [TX_ERRORS firstMatch].
    rewrite Hocc. reflexivity.
Qed.

End TxErrorFacts.

(** * Properties of the stream's subscribers *)

Section StreamFacts.

Import Stream.

Lemma add_NoDup cb (subs : list nat) : NoDup subs -> NoDup (add cb subs).
Proof.
  intros Hnd. unfold add. destruct (decide (cb ∈ subs)) as [Hin | Hout]; [done|].
  apply NoDup_app. split; [done|]. split; [|apply NoDup_singleton].
  intros x Hx Hx'. apply list_elem_of_singleton in Hx'. by subst.
Qed.

Lemma add_elem cb (subs : list nat) : cb ∈ add cb subs.
Proof.
  unfold add. destruct (decide (cb ∈ subs)); [done|].
  apply elem_of_app. right. by apply list_elem_of_singleton.
Qed.

Lemma filter_absent cb (subs : list nat) :
  cb ∉ subs -> filter (fun c => c = cb) subs = [].
Proof.
  induction subs as [|x subs IH]; intros Hout; [reflexivity|].
  apply not_elem_of_cons in Hout as [Hne Hout].
  rewrite filter_cons_False by (intros ->; contradiction). by apply IH.
Qed.

Lemma count_member cb (subs : list nat) :
  NoDup subs -> cb ∈ subs ->
  length (filter (fun c => c = cb) subs) = 1%nat.
Proof.
  induction 1 as [|x subs Hx Hnd IH]; intros Hin.
  - by apply elem_of_nil in Hin.
  - apply elem_of_cons in Hin as [-> | Hin].
    + rewrite filter_cons_True by done. by rewrite filter_absent.
    + rewrite filter_cons_False by (intros ->; contradiction). by apply IH.
Qed.

(** X26. The subscribers are a set.  A callback subscribed twice is there
    once: it is called once for each subscription message, and the first
    unsubscribe removes it altogether.  Messages of any other method reach
    no subscriber. *)
Theorem subscribing_twice_counts_once :
  forall (subscribers : list nat) (callback : nat) (parsed : Message),
    NoDup subscribers ->
    let twice := subscribe callback (subscribe callback subscribers) in
    twice = subscribe callback subscribers
    /\ NoDup twice
    /\ (callback ∉ unsubscribe callback twice)
    /\ (method parsed = "eth_subscription"%string ->
        onMessage twice parsed = map (fun fn => (fn, result parsed)) twice
        /\ length (filter (fun call => fst call = callback) (onMessage twice parsed))
           = 1%nat)
    /\ (method parsed <> "eth_subscription"%string -> onMessage twice parsed = []).
Proof.
  intros subs cb parsed Hnd twice.
  assert (Hsame : twice = subscribe cb subs).
  { subst twice. unfold subscribe. unfold add at 1.
    rewrite decide_True; [reflexivity | apply add_elem]. }
  split; [exact Hsame|]. rewrite Hsame. unfold subscribe.
  split; [by apply add_NoDup|]. split; [|split].
  - unfold unsubscribe, delete. intros Hin.
    apply list_elem_of_filter in Hin as [Hne _]. by apply Hne.
  - intros Hm. unfold onMessage. rewrite Hm, String.eqb_refl.
    split; [reflexivity|].
    rewrite <- (count_member cb (add cb subs) (add_NoDup _ _ Hnd) (add_elem _ _)).
    generalize (add cb subs). intros l. induction l as [|x l IH]; [reflexivity|].
    cbn [map]. destruct (decide (x = cb)) as [-> | Hne].
    + rewrite !filter_cons_True by done. cbn [length]. by rewrite IH.
    + rewrite !filter_cons_False by done. exact IH.
  - intros Hm. unfold onMessage.
    destruct (String.eqb_spec (method parsed) "eth_subscription"); [contradiction|].
    reflexivity.
Qed.

End StreamFacts.

(** Two callbacks are subscribed; the second subscribes once more. *)
Lemma second_subscription_changes_nothing :
  NoDup [1%nat; 2%nat]
  /\ Stream.subscribe 2 (Stream.subscribe 2 [1%nat; 2%nat]) = [1%nat; 2%nat]
  /\ Stream.unsubscribe 2 (Stream.subscribe 2 (Stream.subscribe 2 [1%nat; 2%nat]))
     = [1%nat].
Proof.
  assert (Hnd : NoDup [1%nat; 2%nat])
    by (apply NoDup_cons; split;
        [intros H; apply list_elem_of_singleton in H; discriminate
        | apply NoDup_singleton]).
  split; [exact Hnd|].
  destruct (subscribing_twice_counts_once [1%nat; 2%nat] 2
              (Stream.mkMessage "eth_subscription" "block") Hnd) as (Hsame & _).
  split; [rewrite Hsame; reflexivity | reflexivity].
Defined.
